(** * Compliance bot: rule engine, report aggregation and rendering

    A shallow embedding of [src/index.ts] together with the properties the
    specification states about it.

    JavaScript strings are sequences of UTF-16 code units; they are modelled
    as [list N].  Regular expressions are modelled by a small syntax tree and
    a backtracking matcher written in continuation-passing style, following
    the matcher/continuation presentation of the ECMAScript specification. *)

From Stdlib Require Import List Bool Arith NArith ZArith Lia.
From Stdlib Require Import Ascii String DecimalString.
From Stdlib Require Import Permutation Sorted.
Import ListNotations.

Set Implicit Arguments.

(** ** Strings *)

Module JsString.

(** A string value: its UTF-16 code units. *)
Definition jsstring := list N.

Definition eqb (a b : jsstring) : bool :=
  if list_eq_dec N.eq_dec a b then true else false.

(** Source literals are UTF-8 text; [lit] gives the code units such a
    literal denotes at run time. *)
Fixpoint utf8_decode (bs : list N) : list N :=
  match bs with
  | [] => []
  | b0 :: r0 =>
      if (b0 <? 128)%N then b0 :: utf8_decode r0
      else match r0 with
           | [] => [b0]
           | b1 :: r1 =>
               if (b0 <? 224)%N
               then ((b0 - 192) * 64 + (b1 - 128))%N :: utf8_decode r1
               else match r1 with
                    | [] => [b0; b1]
                    | b2 :: r2 =>
                        if (b0 <? 240)%N
                        then ((b0 - 224) * 4096 + (b1 - 128) * 64
                              + (b2 - 128))%N :: utf8_decode r2
                        else match r2 with
                             | [] => [b0; b1; b2]
                             | b3 :: r3 =>
                                 ((b0 - 240) * 262144 + (b1 - 128) * 4096
                                  + (b2 - 128) * 64 + (b3 - 128))%N
                                   :: utf8_decode r3
                             end
                    end
           end
  end.

Definition utf16_encode (cp : N) : list N :=
  if (cp <? 65536)%N then [cp]
  else [(55296 + (cp - 65536) / 1024)%N; (56320 + (cp - 65536) mod 1024)%N].

Definition lit (s : string) : jsstring :=
  flat_map utf16_encode (utf8_decode (map N_of_ascii (list_ascii_of_string s))).

(** The line feed of a [\n] escape. *)
Definition nl : jsstring := [10%N].

(** [s.substring(0, n)]: the first [n] code units, the whole string when
    it is shorter. *)
Definition substring0 (n : nat) (s : jsstring) : jsstring := firstn n s.

(** [String.prototype.toUpperCase] on the Basic Latin letters, the only
    letters of the strings it is applied to here (the severity names). *)
Definition toUpperCase (s : jsstring) : jsstring :=
  map (fun ch => if ((97 <=? ch) && (ch <=? 122))%N then (ch - 32)%N else ch) s.

(** [Number.prototype.toString] on an array length. *)
Definition numberToString (n : nat) : jsstring :=
  lit (NilZero.string_of_uint (Nat.to_uint n)).

(** [s.replace(pat, e)] with a string pattern [pat] and the empty string
    [e]: the first occurrence of [pat] is removed, wherever it is; without
    one the string is unchanged. *)
Fixpoint startsWith (pat s : jsstring) : option jsstring :=
  match pat, s with
  | [], _ => Some s
  | _ :: _, [] => None
  | p :: pat', c :: s' => if (p =? c)%N then startsWith pat' s' else None
  end.

Fixpoint removeFirst (pat s : jsstring) : jsstring :=
  match startsWith pat s with
  | Some tl => tl
  | None => match s with
            | [] => []
            | c :: s' => c :: removeFirst pat s'
            end
  end.

End JsString.

Import JsString.

(** ** Regular expressions *)

Module RegExp.

(** Pattern syntax, as far as the rule catalog uses it.  A class is a list
    of inclusive code-unit ranges, possibly inverted ([[^...]]). *)
Inductive pattern : Type :=
| Empty
| Char (a : N)
| Class (invert : bool) (ranges : list (N * N))
| WordBoundary
| Seq (r1 r2 : pattern)
| Alt (r1 r2 : pattern)
| Opt (r : pattern)
| Star (r : pattern)
| Plus (r : pattern).

(** A regular expression literal [/source/flags]; of the flags only [i]
    occurs.  No literal carries [g] or [y], so [test] keeps no state. *)
Record regexp : Type := mkRegExp { source : pattern; ignoreCase : bool }.

(** A run of pattern characters. *)
Fixpoint chars (s : jsstring) : pattern :=
  match s with
  | [] => Empty
  | [a] => Char a
  | a :: s' => Seq (Char a) (chars s')
  end.

Definition str (s : string) : pattern := chars (lit s).

(** [\s]: white space and line terminators. *)
Definition whiteSpace : list (N * N) :=
  [(9, 13); (32, 32); (160, 160); (5760, 5760); (8192, 8202); (8232, 8233);
   (8239, 8239); (8287, 8287); (12288, 12288); (65279, 65279)]%N.

Definition inRanges (A : list (N * N)) (ch : N) : bool :=
  existsb (fun '(lo, hi) => (lo <=? ch) && (ch <=? hi))%N A.

(** Canonicalize of a non-unicode pattern.  With the [i] flag a code unit
    is compared through its upper-case form, except that a code unit
    outside Basic Latin is never mapped into Basic Latin.  The catalog's
    patterns consist of Basic Latin characters and of classes no member of
    which has a case mapping, so only the mapping of [a-z] to [A-Z] can
    decide a comparison; the other code units are left as they are. *)
Definition isLower (ch : N) : bool := ((97 <=? ch) && (ch <=? 122))%N.
Definition isUpper (ch : N) : bool := ((65 <=? ch) && (ch <=? 90))%N.

Definition canonicalize (ic : bool) (ch : N) : N :=
  if ic && isLower ch then (ch - 32)%N else ch.

(** CharacterSetMatcher: is there a member [a] of the class with
    [canonicalize a = canonicalize ch]?  The candidates are the code units
    with the canonical form of [ch]. *)
Definition classFound (ic : bool) (A : list (N * N)) (ch : N) : bool :=
  let cc := canonicalize ic ch in
  inRanges A cc || (ic && isUpper cc && inRanges A (cc + 32)%N).

(** IsWordChar, for [\b]. *)
Definition isWordChar (ch : option N) : bool :=
  match ch with
  | None => false
  | Some c => isLower c || isUpper c || ((48 <=? c) && (c <=? 57))%N || (c =? 95)%N
  end.

(** A match state: the code unit before the current position (none at the
    start of the input) and the input from the current position on.  Two
    states of one input have the same end index exactly when their
    remaining inputs have the same length. *)
Record State : Type := mkState { before : option N; rest : list N }.

Definition sameIndex (x y : State) : bool :=
  Nat.eqb (List.length (rest x)) (List.length (rest y)).

Definition Continuation := State -> bool.

(** RepeatMatcher with no upper bound and minimum 0, greedy: one more
    iteration of [m] is tried before the continuation, and an iteration
    that ends where it started is rejected.  Every accepted iteration
    consumes input, so the length of the remaining input bounds the number
    of iterations; [n] is that bound. *)
Fixpoint repeatMatcher (m : State -> Continuation -> bool) (c : Continuation)
  (n : nat) (x : State) {struct n} : bool :=
  match n with
  | O => c x
  | S n' =>
      m x (fun y => if sameIndex x y then false else repeatMatcher m c n' y)
      || c x
  end.

(** The matcher of a pattern: [true] when the pattern followed by the
    continuation matches from state [x]. *)
Fixpoint matcher (ic : bool) (r : pattern) (x : State) (c : Continuation)
  {struct r} : bool :=
  match r with
  | Empty => c x
  | Char a =>
      match rest x with
      | [] => false
      | ch :: tl =>
          if (canonicalize ic ch =? canonicalize ic a)%N
          then c (mkState (Some ch) tl) else false
      end
  | Class invert A =>
      match rest x with
      | [] => false
      | ch :: tl =>
          if xorb invert (classFound ic A ch)
          then c (mkState (Some ch) tl) else false
      end
  | WordBoundary =>
      if xorb (isWordChar (before x)) (isWordChar (hd_error (rest x)))
      then c x else false
  | Seq r1 r2 => matcher ic r1 x (fun y => matcher ic r2 y c)
  | Alt r1 r2 => matcher ic r1 x c || matcher ic r2 x c
  | Opt r1 =>
      matcher ic r1 x (fun y => if sameIndex x y then false else c y) || c x
  | Star r1 => repeatMatcher (matcher ic r1) c (List.length (rest x)) x
  | Plus r1 =>
      matcher ic r1 x
        (fun y => repeatMatcher (matcher ic r1) c (List.length (rest y)) y)
  end.

(** [re.test(s)] for a literal without [g]/[y]: a match is tried at every
    start index from 0 to the length of [s]. *)
Fixpoint search (ic : bool) (r : pattern) (prev : option N) (s : list N)
  : bool :=
  matcher ic r (mkState prev s) (fun _ => true)
  || match s with
     | [] => false
     | ch :: tl => search ic r (Some ch) tl
     end.

Definition test (re : regexp) (s : jsstring) : bool :=
  search (ignoreCase re) (source re) None s.

End RegExp.

Import RegExp.

(** ** Plain objects used as maps *)

Module JsObject.

(** The property names every plain object inherits from
    [Object.prototype].  Reading one of them on an object that has no own
    property of that name yields the inherited value: a function, or for
    [__proto__] the prototype object itself.  Each is truthy and none has
    a [push] method. *)
Definition objectPrototypeKeys : list jsstring :=
  map lit
    ["constructor"; "__defineGetter__"; "__defineSetter__"; "hasOwnProperty";
     "__lookupGetter__"; "__lookupSetter__"; "isPrototypeOf";
     "propertyIsEnumerable"; "toString"; "valueOf"; "__proto__";
     "toLocaleString"]%string.

Definition isInherited (k : jsstring) : bool :=
  existsb (JsString.eqb k) objectPrototypeKeys.

(** An object created by [{}]: its own properties in creation order. *)
Definition object (V : Type) := list (jsstring * V).

Inductive value (V : Type) : Type :=
| Own (v : V)
| Inherited
| Undefined.
Arguments Inherited {V}.
Arguments Undefined {V}.

Fixpoint getOwn {V} (o : object V) (k : jsstring) : option V :=
  match o with
  | [] => None
  | (k', v) :: o' => if JsString.eqb k k' then Some v else getOwn o' k
  end.

(** [o[k]] *)
Definition get {V} (o : object V) (k : jsstring) : value V :=
  match getOwn o k with
  | Some v => Own v
  | None => if isInherited k then Inherited else Undefined
  end.

(** Own values are arrays here, and an array is truthy even when empty. *)
Definition truthy {V} (x : value V) : bool :=
  match x with
  | Own _ | Inherited => true
  | Undefined => false
  end.

(** [o[k] = v] for a data property: an existing own property keeps its
    place, a new one is created last. *)
Fixpoint set {V} (o : object V) (k : jsstring) (v : V) : object V :=
  match o with
  | [] => [(k, v)]
  | (k', v') :: o' =>
      if JsString.eqb k k' then (k', v) :: o' else (k', v') :: set o' k v
  end.

(** Array indices: the canonical decimal strings of the integers from 0 to
    2^32 - 2. *)
Definition isDigit (ch : N) : bool := ((48 <=? ch) && (ch <=? 57))%N.

Definition digitsValue (k : jsstring) : N :=
  fold_left (fun acc ch => acc * 10 + (ch - 48))%N k 0%N.

Definition isArrayIndex (k : jsstring) : bool :=
  match k with
  | [] => false
  | d :: ds =>
      forallb isDigit k
      && (negb (d =? 48)%N || match ds with [] => true | _ => false end)
        && (digitsValue k <=? 4294967294)%N
  end.

Fixpoint insertByIndex {V} (e : jsstring * V) (l : list (jsstring * V))
  : list (jsstring * V) :=
  match l with
  | [] => [e]
  | e' :: l' =>
      if (digitsValue (fst e) <=? digitsValue (fst e'))%N
      then e :: l else e' :: insertByIndex e l'
  end.

Definition sortByIndex {V} (l : list (jsstring * V)) : list (jsstring * V) :=
  fold_right insertByIndex [] l.

(** [Object.entries(o)]: the array-index keys in ascending numeric order,
    then the other string keys in creation order. *)
Definition entries {V} (o : object V) : list (jsstring * V) :=
  sortByIndex (filter (fun e => isArrayIndex (fst e)) o)
  ++ filter (fun e => negb (isArrayIndex (fst e))) o.

End JsObject.

(** ** Exceptions *)

Inductive exn : Type := TypeError.

Inductive result (A : Type) : Type :=
| Ok (a : A)
| Throw (e : exn).
Arguments Throw {A}.

Definition bind {A B} (m : result A) (f : A -> result B) : result B :=
  match m with
  | Ok a => f a
  | Throw e => Throw e
  end.

Notation "x <- m ;; f" := (bind m (fun x => f))
  (at level 61, m at next level, right associativity).

(** [for (const a of l) body] over a state that the body may abandon with an
    exception. *)
Fixpoint forOf {A S} (body : S -> A -> result S) (l : list A) (s : S)
  : result S :=
  match l with
  | [] => Ok s
  | a :: l' => s' <- body s a ;; forOf body l' s'
  end.

(** ** Data model *)

Inductive Severity : Type := high | medium | low.

Definition severityName (s : Severity) : jsstring :=
  match s with
  | high => lit "high"
  | medium => lit "medium"
  | low => lit "low"
  end.

Definition Severity_eqb (a b : Severity) : bool :=
  match a, b with
  | high, high | medium, medium | low, low => true
  | _, _ => false
  end.

Record ComplianceViolation : Type := mkViolation {
  file : jsstring;
  issue : jsstring;
  severity : Severity
}.

Record ComplianceReport : Type := mkReport {
  violations : list ComplianceViolation;
  passed : bool;
  summary : jsstring
}.

(** [a.push(v)] *)
Definition push {A} (a : list A) (v : A) : list A := a ++ [v].

(** ** Rule engine *)

Module Rules.

Declare Scope re_scope.
Delimit Scope re_scope with re.
Infix ">>" := Seq (at level 41, right associativity) : re_scope.
Infix "<|>" := Alt (at level 51, right associativity) : re_scope.
Local Open Scope re_scope.

Definition ws : pattern := Class false whiteSpace.
Definition quote : pattern := Class false [(39, 39); (34, 34)]%N.
Definition notQuote : pattern := Class true [(39, 39); (34, 34)]%N.

(** The tail shared by the first three patterns, [\s*=\s*Q[^Q]+Q], where
    [Q] stands for the class of the single and the double quote. *)
Definition quotedAssignment : pattern :=
  Star ws >> Char 61 >> Star ws >> quote >> Plus notQuote >> quote.

(** [/(password|passwd|pwd)\s*=\s*Q[^Q]+Q/i] *)
Definition passwordPattern : regexp :=
  mkRegExp ((str "password" <|> str "passwd" <|> str "pwd")
            >> quotedAssignment) true.

(** [/(api[_-]?key|apikey)\s*=\s*Q[^Q]+Q/i] *)
Definition apiKeyPattern : regexp :=
  mkRegExp ((str "api" >> Opt (Class false [(95, 95); (45, 45)]%N) >> str "key"
             <|> str "apikey")
            >> quotedAssignment) true.

(** [/(secret|token)\s*=\s*Q[^Q]+Q/i] *)
Definition secretPattern : regexp :=
  mkRegExp ((str "secret" <|> str "token") >> quotedAssignment) true.

(** [/aws_access_key_id|aws_secret_access_key/i] *)
Definition awsPattern : regexp :=
  mkRegExp (str "aws_access_key_id" <|> str "aws_secret_access_key") true.

(** [/console\.(log|debug|info|warn|error)/] *)
Definition consolePattern : regexp :=
  mkRegExp (str "console" >> Char 46
            >> (str "log" <|> str "debug" <|> str "info" <|> str "warn"
                <|> str "error")) false.

(** [/(TODO|FIXME|HACK|XXX):?/i] *)
Definition todoPattern : regexp :=
  mkRegExp ((str "TODO" <|> str "FIXME" <|> str "HACK" <|> str "XXX")
            >> Opt (Char 58)) true.

(** [/(eslint-disable|@ts-ignore|@ts-nocheck)/] *)
Definition lintPattern : regexp :=
  mkRegExp (str "eslint-disable" <|> str "@ts-ignore" <|> str "@ts-nocheck")
           false.

(** [/\beval\s*\(/] *)
Definition evalPattern : regexp :=
  mkRegExp (WordBoundary >> str "eval" >> Star ws >> Char 40) false.

Definition secretPatterns : list (regexp * jsstring) :=
  [ (passwordPattern, lit "Hardcoded password detected");
    (apiKeyPattern, lit "Hardcoded API key detected");
    (secretPattern, lit "Hardcoded secret/token detected");
    (awsPattern, lit "AWS credentials detected") ].

End Rules.

Import Rules.

(** Analyzes file changes for compliance violations. *)
Definition analyzeFileForCompliance (filename patch : jsstring)
  : list ComplianceViolation :=
  let violations := [] in
  (* Check for hardcoded secrets/credentials *)
  let violations :=
    fold_left
      (fun violations '(pattern, issue) =>
         if test pattern patch
         then push violations (mkViolation filename issue high)
         else violations)
      secretPatterns violations in
  (* Check for console.log statements *)
  let violations :=
    if test consolePattern patch
    then push violations
           (mkViolation filename
              (lit "Console statements detected - use proper logging framework")
              low)
    else violations in
  (* Check for TODO/FIXME comments in production code *)
  let violations :=
    if test todoPattern patch
    then push violations
           (mkViolation filename
              (lit "TODO/FIXME comments detected - should be tracked as issues")
              low)
    else violations in
  (* Check for disabled linting rules *)
  let violations :=
    if test lintPattern patch
    then push violations
           (mkViolation filename
              (lit "Linting rules disabled - fix the underlying issue instead")
              medium)
    else violations in
  (* Check for unsafe eval usage *)
  let violations :=
    if test evalPattern patch
    then push violations
           (mkViolation filename (lit "Unsafe eval() usage detected") high)
    else violations in
  violations.

(** ** Report aggregator *)

(** Generates a compliance report from violations. *)
Definition generateComplianceReport (violations : list ComplianceViolation)
  : ComplianceReport :=
  let passed := Nat.eqb (List.length violations) 0 in
  let highSeverity :=
    filter (fun v => Severity_eqb (severity v) high) violations in
  let mediumSeverity :=
    filter (fun v => Severity_eqb (severity v) medium) violations in
  let lowSeverity :=
    filter (fun v => Severity_eqb (severity v) low) violations in
  let summary :=
    if passed
    then lit "✅ All compliance checks passed!"
    else lit "❌ Found " ++ numberToString (List.length violations)
         ++ lit " compliance violation(s):" ++ nl
         ++ lit "- " ++ numberToString (List.length highSeverity)
         ++ lit " high severity" ++ nl
         ++ lit "- " ++ numberToString (List.length mediumSeverity)
         ++ lit " medium severity" ++ nl
         ++ lit "- " ++ numberToString (List.length lowSeverity)
         ++ lit " low severity" in
  mkReport violations passed summary.

(** ** Report renderer *)

Import JsObject.

(** The body of the grouping loop: the file's array is created when
    [groupedByFile[violation.file]] is falsy, then the violation is pushed
    on whatever [groupedByFile[violation.file]] is.  An inherited value has
    no [push], and calling it is a TypeError. *)
Definition groupStep (groupedByFile : object (list ComplianceViolation))
  (violation : ComplianceViolation)
  : result (object (list ComplianceViolation)) :=
  let groupedByFile :=
    if negb (truthy (get groupedByFile (file violation)))
    then set groupedByFile (file violation) []
    else groupedByFile in
  match get groupedByFile (file violation) with
  | Own fileViolations =>
      Ok (set groupedByFile (file violation) (push fileViolations violation))
  | Inherited | Undefined => Throw TypeError
  end.

Definition severityEmoji (s : Severity) : jsstring :=
  if Severity_eqb s high then lit "🔴"
  else if Severity_eqb s medium then lit "🟡"
  else lit "🔵".

(** One line of a file's list. *)
Definition violationLine (violation : ComplianceViolation) : jsstring :=
  lit "- " ++ severityEmoji (severity violation) ++ lit " **"
  ++ toUpperCase (severityName (severity violation)) ++ lit "**: "
  ++ issue violation ++ nl.

(** One pass of the loop over [Object.entries(groupedByFile)]. *)
Definition fileSection (markdown : jsstring)
  (entry : jsstring * list ComplianceViolation) : jsstring :=
  let '(file, fileViolations) := entry in
  let markdown := markdown ++ lit "#### 📄 `" ++ file ++ lit "`" ++ nl ++ nl in
  let markdown :=
    fold_left (fun markdown violation => markdown ++ violationLine violation)
      fileViolations markdown in
  markdown ++ nl.

(** Formats the compliance report as a markdown comment. *)
Definition formatComplianceReport (report : ComplianceReport)
  (commitSha commitMessage author : jsstring) : result jsstring :=
  let markdown := lit "## 🔍 Compliance Report" ++ nl ++ nl in
  let markdown := markdown ++ lit "**Commit:** " ++ substring0 7 commitSha ++ nl in
  let markdown := markdown ++ lit "**Author:** " ++ author ++ nl in
  let markdown := markdown ++ lit "**Message:** " ++ commitMessage ++ nl ++ nl in
  let markdown := markdown ++ lit "---" ++ nl ++ nl in
  let markdown := markdown ++ summary report ++ nl ++ nl in
  if negb (passed report) then
    let markdown := markdown ++ lit "### Violations:" ++ nl ++ nl in
    groupedByFile <- forOf groupStep (violations report) [] ;;
    let markdown := fold_left fileSection (entries groupedByFile) markdown in
    let markdown := markdown ++ nl ++ lit "---" ++ nl ++ nl in
    let markdown :=
      markdown
      ++ lit "⚠️ Please address these violations before merging to maintain compliance standards." in
    Ok markdown
  else Ok markdown.

(** ** The push handler *)

Record Commit : Type := mkCommit {
  id : jsstring;
  message : jsstring;
  authorName : jsstring
}.

(** A changed file of a commit; [patch] is absent for a file without a
    textual diff. *)
Record ChangedFile : Type := mkChangedFile {
  filename : jsstring;
  patch : option jsstring
}.

(** [owner.name] is optional in the payload, [owner.login] is not. *)
Record PushPayload : Type := mkPushPayload {
  ref : jsstring;
  pusherName : jsstring;
  ownerName : option jsstring;
  ownerLogin : jsstring;
  repositoryName : jsstring;
  commits : list Commit
}.

(** What awaiting [octokit.repos.getCommit] gives: a rejection, with the
    text the handler logs for it, or the response's optional [files]. *)
Inductive CommitResponse : Type :=
| Rejected (reason : jsstring)
| Resolved (files : option (list ChangedFile)).

Record IssueRequest : Type := mkIssueRequest {
  issueOwner : jsstring;
  issueRepo : jsstring;
  title : jsstring;
  body : jsstring;
  labels : list jsstring
}.

(** What awaiting [octokit.issues.create] gives: a rejection, with its
    error, or the created issue. *)
Inductive IssueResponse : Type :=
| IssueRejected (error : jsstring)
| IssueResolved.

(** The remote API, as the handler sees it, with its two calls:
    [repos.getCommit] on an owner, a repository and a ref, and
    [issues.create] on a request. *)
Record Octokit : Type := mkOctokit {
  reposGetCommit : jsstring -> jsstring -> jsstring -> CommitResponse;
  issuesCreate : IssueRequest -> IssueResponse
}.

Inductive LogEntry : Type :=
| LogInfo (msg : jsstring)
| LogError (msg : jsstring).

(** How one handler run ends: the branch is not analysed; an exception of
    the handler's own code escapes it; the request is made and the API
    rejects it, and the rejection escapes the handler; or the issue is
    created. *)
Inductive Outcome : Type :=
| Skipped
| Failed (e : exn)
| Refused (request : IssueRequest) (error : jsstring)
| Created (request : IssueRequest).

(** A string is truthy unless it is empty. *)
Definition nonEmpty (s : jsstring) : bool :=
  match s with [] => false | _ :: _ => true end.

(** [payload.repository.owner.name || payload.repository.owner.login] *)
Definition repositoryOwner (payload : PushPayload) : jsstring :=
  match ownerName payload with
  | Some name => if nonEmpty name then name else ownerLogin payload
  | None => ownerLogin payload
  end.

(** [a[i]] for an index that may be negative: [undefined] outside the
    array. *)
Definition arrayGet {A} (a : list A) (i : Z) : option A :=
  if (i <? 0)%Z then None else nth_error a (Z.to_nat i).

(** The loop over the files of one commit. *)
Definition analyzeFiles (files : list ChangedFile)
  (allViolations : list ComplianceViolation) : list ComplianceViolation :=
  fold_left
    (fun allViolations file =>
       match patch file with
       | Some patch =>
           if nonEmpty patch
           then allViolations ++ analyzeFileForCompliance (filename file) patch
           else allViolations
       | None => allViolations
       end)
    files allViolations.

(** The body of the loop over the commits: the try block and its catch.
    The state is the log and the violations collected so far. *)
Definition analyzeCommit (octokit : Octokit) (payload : PushPayload)
  (state : list LogEntry * list ComplianceViolation) (commit : Commit)
  : list LogEntry * list ComplianceViolation :=
  let '(log, allViolations) := state in
  match reposGetCommit octokit (repositoryOwner payload)
          (repositoryName payload) (id commit) with
  | Resolved (Some files) => (log, analyzeFiles files allViolations)
  | Resolved None => (log, allViolations)
  | Rejected reason =>
      (push log
         (LogError (lit "Error analyzing commit " ++ id commit ++ lit ": "
                    ++ reason)),
       allViolations)
  end.

(** The handler of the push event.  The entry that the report is posted is
    logged after [issues.create] is awaited, so only when it resolves. *)
Definition onPush (octokit : Octokit) (payload : PushPayload)
  : list LogEntry * Outcome :=
  (* Only analyze pushes to the main/master branch *)
  let branch := removeFirst (lit "refs/heads/") (ref payload) in
  if negb (JsString.eqb branch (lit "main"))
     && negb (JsString.eqb branch (lit "master"))
  then ([LogInfo (lit "Skipping compliance check for branch: " ++ branch)],
        Skipped)
  else
    let log :=
      [LogInfo (lit "Running compliance check for push to " ++ branch
                ++ lit " by " ++ pusherName payload)] in
    (* Analyze each commit in the push *)
    let '(log, allViolations) :=
      fold_left (analyzeCommit octokit payload) (commits payload) (log, []) in
    (* Generate and post the compliance report as an issue *)
    let latestCommit :=
      arrayGet (commits payload) (Z.of_nat (List.length (commits payload)) - 1) in
    let report := generateComplianceReport allViolations in
    match latestCommit with
    | None => (log, Failed TypeError)
    | Some latestCommit =>
        match formatComplianceReport report (id latestCommit)
                (message latestCommit) (authorName latestCommit) with
        | Throw e => (log, Failed e)
        | Ok reportBody =>
            let issueTitle :=
              if passed report
              then lit "✅ Compliance Check Passed - "
                   ++ substring0 7 (id latestCommit)
              else lit "❌ Compliance Violations Detected - "
                   ++ substring0 7 (id latestCommit) in
            let request :=
              mkIssueRequest (repositoryOwner payload)
                (repositoryName payload) issueTitle reportBody
                (if passed report
                 then [lit "compliance"; lit "passed"]
                 else [lit "compliance"; lit "violation"]) in
            match issuesCreate octokit request with
            | IssueRejected error => (log, Refused request error)
            | IssueResolved =>
                (push log
                   (LogInfo (lit "Compliance report posted: "
                             ++ (if passed report then lit "PASSED"
                                 else lit "FAILED"))),
                 Created request)
            end
        end
    end.

(** ** Notions the properties are stated with *)

(** The eight rules, named, in the order [analyzeFileForCompliance] checks
    them: the four entries of [secretPatterns], then the four conditionals. *)
Inductive Rule : Type :=
| Password | ApiKey | Secret | Aws | Console | Todo | Lint | Eval.

Definition catalog : list Rule :=
  [Password; ApiKey; Secret; Aws; Console; Todo; Lint; Eval].

Definition rulePattern (k : Rule) : regexp :=
  match k with
  | Password => passwordPattern
  | ApiKey => apiKeyPattern
  | Secret => secretPattern
  | Aws => awsPattern
  | Console => consolePattern
  | Todo => todoPattern
  | Lint => lintPattern
  | Eval => evalPattern
  end.

Definition ruleIssue (k : Rule) : jsstring :=
  match k with
  | Password => lit "Hardcoded password detected"
  | ApiKey => lit "Hardcoded API key detected"
  | Secret => lit "Hardcoded secret/token detected"
  | Aws => lit "AWS credentials detected"
  | Console => lit "Console statements detected - use proper logging framework"
  | Todo => lit "TODO/FIXME comments detected - should be tracked as issues"
  | Lint => lit "Linting rules disabled - fix the underlying issue instead"
  | Eval => lit "Unsafe eval() usage detected"
  end.

Definition ruleSeverity (k : Rule) : Severity :=
  match k with
  | Password | ApiKey | Secret | Aws | Eval => high
  | Lint => medium
  | Console | Todo => low
  end.

Definition ruleViolation (filename : jsstring) (k : Rule) : ComplianceViolation :=
  mkViolation filename (ruleIssue k) (ruleSeverity k).

(** The pattern of rule [k] matches somewhere in the text. *)
Definition fires (k : Rule) (patch : jsstring) : bool :=
  test (rulePattern k) patch.

(** The violations of rule [k] in a result: those with its issue text. *)
Definition ofRule (k : Rule) (vs : list ComplianceViolation)
  : list ComplianceViolation :=
  filter (fun v => JsString.eqb (issue v) (ruleIssue k)) vs.

(** [analyzeFileForCompliance] reports rule [k] on the text. *)
Definition reports (k : Rule) (filename patch : jsstring) : Prop :=
  In (ruleViolation filename k) (analyzeFileForCompliance filename patch).

Definition countSeverity (s : Severity) (vs : list ComplianceViolation) : nat :=
  List.length (filter (fun v => Severity_eqb (severity v) s) vs).

(** Two code units that differ at most in the case of a Basic Latin letter,
    and two texts that do so position by position. *)
Definition caseEq (a b : N) : Prop :=
  canonicalize true a = canonicalize true b.

Definition caseVariant (t t' : jsstring) : Prop := Forall2 caseEq t t'.

(** The rules whose literal carries the [i] flag. *)
Definition caseInsensitiveRules : list Rule :=
  [Password; ApiKey; Secret; Aws; Todo].

(** Match states of two case variants at the same index. *)
Definition stateVariant (x y : State) : Prop :=
  match before x, before y with
  | None, None => True
  | Some a, Some b => caseEq a b
  | _, _ => False
  end
  /\ caseVariant (rest x) (rest y).

(** The parts of the rendered document.  [header] is the title line and the
    metadata block, [preamble] the document up to and including the
    summary. *)
Definition header (commitSha commitMessage author : jsstring) : jsstring :=
  lit "## 🔍 Compliance Report" ++ nl ++ nl
  ++ lit "**Commit:** " ++ substring0 7 commitSha ++ nl
  ++ lit "**Author:** " ++ author ++ nl
  ++ lit "**Message:** " ++ commitMessage ++ nl ++ nl.

Definition preamble (report : ComplianceReport)
  (commitSha commitMessage author : jsstring) : jsstring :=
  header commitSha commitMessage author
  ++ lit "---" ++ nl ++ nl
  ++ summary report ++ nl ++ nl.

Definition violationsHeading : jsstring := lit "### Violations:" ++ nl ++ nl.

Definition closing : jsstring :=
  nl ++ lit "---" ++ nl ++ nl
  ++ lit "⚠️ Please address these violations before merging to maintain compliance standards.".

(** The subsection of one file with its violations. *)
Definition section (entry : jsstring * list ComplianceViolation) : jsstring :=
  lit "#### 📄 `" ++ fst entry ++ lit "`" ++ nl ++ nl
  ++ List.concat (map violationLine (snd entry)) ++ nl.

(** The distinct elements of a list, in the order of their first
    occurrences. *)
Fixpoint firstOccurrences (l : list jsstring) : list jsstring :=
  match l with
  | [] => []
  | f :: l' =>
      f :: filter (fun g => negb (JsString.eqb g f)) (firstOccurrences l')
  end.

(** The violations of one file, in their original order. *)
Definition violationsOf (f : jsstring) (vs : list ComplianceViolation)
  : list ComplianceViolation :=
  filter (fun v => JsString.eqb (file v) f) vs.

(** The grouping the specification asks for: one group per distinct file,
    the files by first occurrence, each with its violations in order. *)
Definition groupsInOrder (vs : list ComplianceViolation)
  : list (jsstring * list ComplianceViolation) :=
  map (fun f => (f, violationsOf f vs)) (firstOccurrences (map file vs)).

(** No violation is on a path that names an inherited property. *)
Definition plainPaths (vs : list ComplianceViolation) : bool :=
  forallb (fun v => negb (isInherited (file v))) vs.

(** No violation is on a path that is an array index. *)
Definition noIndexPaths (vs : list ComplianceViolation) : bool :=
  forallb (fun v => negb (isArrayIndex (file v))) vs.

(** The violations a push collects, the report made of them, and whether
    the push is to an analysed branch. *)
Definition collected (octokit : Octokit) (payload : PushPayload)
  : list ComplianceViolation :=
  snd (fold_left (analyzeCommit octokit payload) (commits payload) ([], [])).

Definition pushReport (octokit : Octokit) (payload : PushPayload)
  : ComplianceReport :=
  generateComplianceReport (collected octokit payload).

Definition analysedBranch (payload : PushPayload) : bool :=
  let branch := removeFirst (lit "refs/heads/") (ref payload) in
  JsString.eqb branch (lit "main") || JsString.eqb branch (lit "master").

(** The request the handler makes for a push whose last commit is
    [latestCommit] and whose report renders to [reportBody]. *)
Definition requestFor (octokit : Octokit) (payload : PushPayload)
  (latestCommit : Commit) (reportBody : jsstring) : IssueRequest :=
  mkIssueRequest (repositoryOwner payload) (repositoryName payload)
    ((if passed (pushReport octokit payload)
      then lit "✅ Compliance Check Passed - "
      else lit "❌ Compliance Violations Detected - ")
     ++ substring0 7 (id latestCommit))
    reportBody
    [lit "compliance";
     if passed (pushReport octokit payload)
     then lit "passed" else lit "violation"].

(** ** Sample inputs *)

(** A push of two commits to [main]: the first adds a console call and a
    hardcoded password to [src/app.js], the second only touches the
    README. *)
Definition sampleCommits : list Commit :=
  [ mkCommit (lit "1111111aaaaaaaaa") (lit "Add new feature") (lit "Ann");
    mkCommit (lit "2222222bbbbbbbbb") (lit "Fix the docs") (lit "Bob") ].

Definition samplePush : PushPayload :=
  mkPushPayload (lit "refs/heads/main") (lit "ann") None (lit "hiimbex")
    (lit "testing-things") sampleCommits.

Definition sampleOctokit : Octokit :=
  mkOctokit
    (fun _ _ ref =>
       if JsString.eqb ref (lit "1111111aaaaaaaaa")
       then Resolved
              (Some [mkChangedFile (lit "src/app.js")
                       (Some (lit "console.log('test'); const password = 'secret123';"))])
       else Resolved (Some [mkChangedFile (lit "README.md") (Some (lit "More docs"))]))
    (fun _ => IssueResolved).

Definition noRequest : IssueRequest := mkIssueRequest [] [] [] [] [].

Definition sampleRequest : IssueRequest :=
  Eval vm_compute in
    match snd (onPush sampleOctokit samplePush) with
    | Created request => request
    | _ => noRequest
    end.

(** An API that answers like [sampleOctokit] about the repository
    [testing-things] and rejects every call about another one. *)
Definition repositoryOctokit : Octokit :=
  mkOctokit
    (fun owner repo ref =>
       if JsString.eqb repo (lit "testing-things")
       then reposGetCommit sampleOctokit owner repo ref
       else Rejected (lit "Not Found"))
    (fun request =>
       if JsString.eqb (issueRepo request) (lit "testing-things")
       then issuesCreate sampleOctokit request
       else IssueRejected (lit "Not Found")).

(** An API that rejects every retrieval and resolves every request, and one
    that rejects the retrieval of the first sample commit and every
    request. *)
Definition unreachableOctokit : Octokit :=
  mkOctokit (fun _ _ _ => Rejected (lit "Not Found")) (fun _ => IssueResolved).

Definition halfRejectingOctokit : Octokit :=
  mkOctokit
    (fun owner repo ref =>
       if JsString.eqb ref (lit "1111111aaaaaaaaa")
       then Rejected (lit "Not Found")
       else reposGetCommit sampleOctokit owner repo ref)
    (fun _ => IssueRejected (lit "Validation Failed")).

(** The same push without commits, as sent when a branch is reset to a
    commit it already contained. *)
Definition emptyPush : PushPayload :=
  mkPushPayload (lit "refs/heads/main") (lit "ann") None (lit "hiimbex")
    (lit "testing-things") [].

(** ** What a pattern matches *)

(** The code unit before the position reached after consuming [mid] from a
    position preceded by [p]. *)
Definition lastBefore (p : option N) (mid : list N) : option N :=
  last (map Some mid) p.

(** [lang ic r p mid rest]: at a position preceded by [p] and followed by
    [mid ++ rest], the pattern [r] can match exactly [mid].  The context is
    there for the word boundary. *)
Inductive lang (ic : bool) : pattern -> option N -> list N -> list N -> Prop :=
| lang_Empty p rest : lang ic Empty p [] rest
| lang_Char a ch p rest :
    canonicalize ic ch = canonicalize ic a -> lang ic (Char a) p [ch] rest
| lang_Class invert A ch p rest :
    xorb invert (classFound ic A ch) = true ->
    lang ic (Class invert A) p [ch] rest
| lang_WordBoundary p rest :
    xorb (isWordChar p) (isWordChar (hd_error rest)) = true ->
    lang ic WordBoundary p [] rest
| lang_Seq r1 r2 p m1 m2 rest :
    lang ic r1 p m1 (m2 ++ rest) ->
    lang ic r2 (lastBefore p m1) m2 rest ->
    lang ic (Seq r1 r2) p (m1 ++ m2) rest
| lang_Alt_l r1 r2 p mid rest :
    lang ic r1 p mid rest -> lang ic (Alt r1 r2) p mid rest
| lang_Alt_r r1 r2 p mid rest :
    lang ic r2 p mid rest -> lang ic (Alt r1 r2) p mid rest
| lang_Opt_none r p rest : lang ic (Opt r) p [] rest
| lang_Opt_some r p mid rest :
    lang ic r p mid rest -> lang ic (Opt r) p mid rest
| lang_Star_nil r p rest : lang ic (Star r) p [] rest
| lang_Star_cons r p m1 m2 rest :
    lang ic r p m1 (m2 ++ rest) ->
    lang ic (Star r) (lastBefore p m1) m2 rest ->
    lang ic (Star r) p (m1 ++ m2) rest
| lang_Plus r p m1 m2 rest :
    lang ic r p m1 (m2 ++ rest) ->
    lang ic (Star r) (lastBefore p m1) m2 rest ->
    lang ic (Plus r) p (m1 ++ m2) rest.

(** The continuation accepts the state reached after [mid]. *)
Definition accepts (c : Continuation) (p : option N) (mid rest : list N) : Prop :=
  c (mkState (lastBefore p mid) rest) = true.

(** Two runs of code units the matcher cannot tell apart: equal position by
    position, up to the case of Basic Latin letters when [ic] is set. *)
Definition sameUnder (ic : bool) (mid w : list N) : Prop :=
  Forall2 (fun a b => canonicalize ic a = canonicalize ic b) mid w.

(** The word [w] occurs somewhere in the text [t], in that sense. *)
Definition occursIn (ic : bool) (w t : jsstring) : Prop :=
  exists pre mid post, t = pre ++ mid ++ post /\ sameUnder ic mid w.

Definition isLetter (ch : N) : bool := isLower ch || isUpper ch.

(** The words of a pattern built from pattern characters, sequence,
    alternation, [?] and classes that list single code units other than
    letters; no result for another pattern. *)
Definition singletons (A : list (N * N)) : bool :=
  forallb (fun '(lo, hi) => (lo =? hi)%N && negb (isLetter lo)) A.

Fixpoint literalsOf (r : pattern) : option (list (list N)) :=
  match r with
  | Empty => Some [[]]
  | Char a => Some [[a]]
  | Class invert A =>
      if negb invert && singletons A
      then Some (map (fun e => [fst e]) A) else None
  | Seq r1 r2 =>
      match literalsOf r1, literalsOf r2 with
      | Some ws1, Some ws2 => Some (flat_map (fun u => map (app u) ws2) ws1)
      | _, _ => None
      end
  | Alt r1 r2 =>
      match literalsOf r1, literalsOf r2 with
      | Some ws1, Some ws2 => Some (ws1 ++ ws2)
      | _, _ => None
      end
  | Opt r1 =>
      match literalsOf r1 with
      | Some ws => Some ([] :: ws)
      | None => None
      end
  | WordBoundary | Star _ | Plus _ => None
  end.

(** A pattern without a word boundary. *)
Fixpoint boundaryFree (r : pattern) : bool :=
  match r with
  | WordBoundary => false
  | Empty | Char _ | Class _ _ => true
  | Seq r1 r2 | Alt r1 r2 => boundaryFree r1 && boundaryFree r2
  | Opt r1 | Star r1 | Plus r1 => boundaryFree r1
  end.

Definition isSpace (ch : N) : bool := inRanges whiteSpace ch.

Definition isQuote (ch : N) : bool := ((ch =? 39) || (ch =? 34))%N.

(** The words whose occurrence the four literal rules look for. *)
Definition ruleLiterals (k : Rule) : list jsstring :=
  match k with
  | Aws => [lit "aws_access_key_id"; lit "aws_secret_access_key"]
  | Console =>
      [lit "console.log"; lit "console.debug"; lit "console.info";
       lit "console.warn"; lit "console.error"]
  | Todo => [lit "TODO"; lit "FIXME"; lit "HACK"; lit "XXX"]
  | Lint => [lit "eslint-disable"; lit "@ts-ignore"; lit "@ts-nocheck"]
  | _ => []
  end.

(** The variable names the three credential rules look for. *)
Definition credentialNames (k : Rule) : list jsstring :=
  match k with
  | Password => [lit "password"; lit "passwd"; lit "pwd"]
  | ApiKey => [lit "api_key"; lit "api-key"; lit "apikey"]
  | Secret => [lit "secret"; lit "token"]
  | _ => []
  end.

(** An equals sign between optional white space, then a non-empty run
    without quote characters between two quote characters, which need not
    be of one kind. *)
Definition quotedAssignmentShape (s : list N) : Prop :=
  exists ws1 ws2 q1 val q2,
    s = ws1 ++ [61%N] ++ ws2 ++ [q1] ++ val ++ [q2]
    /\ Forall (fun ch => isSpace ch = true) ws1
    /\ Forall (fun ch => isSpace ch = true) ws2
    /\ isQuote q1 = true /\ isQuote q2 = true
    /\ val <> []
    /\ Forall (fun ch => isQuote ch = false) val.

(** ** What a push contributes *)

(** The violations of one changed file: those of its patch, none without
    one. *)
Definition fileViolations (f : ChangedFile) : list ComplianceViolation :=
  match patch f with
  | Some text => analyzeFileForCompliance (filename f) text
  | None => []
  end.

(** The violations of one commit: those of the files of its response, none
    when the retrieval is rejected or the response lists no files. *)
Definition commitViolations (octokit : Octokit) (payload : PushPayload)
  (c : Commit) : list ComplianceViolation :=
  match reposGetCommit octokit (repositoryOwner payload)
          (repositoryName payload) (id c) with
  | Resolved (Some files) => flat_map fileViolations files
  | Resolved None | Rejected _ => []
  end.

(** The error entry of one commit, if its retrieval is rejected. *)
Definition commitErrors (octokit : Octokit) (payload : PushPayload)
  (c : Commit) : list LogEntry :=
  match reposGetCommit octokit (repositoryOwner payload)
          (repositoryName payload) (id c) with
  | Rejected reason =>
      [LogError (lit "Error analyzing commit " ++ id c ++ lit ": " ++ reason)]
  | Resolved _ => []
  end.

Definition runningEntry (payload : PushPayload) : LogEntry :=
  LogInfo (lit "Running compliance check for push to "
           ++ removeFirst (lit "refs/heads/") (ref payload)
           ++ lit " by " ++ pusherName payload).

Definition postedEntry (report : ComplianceReport) : LogEntry :=
  LogInfo (lit "Compliance report posted: "
           ++ (if passed report then lit "PASSED" else lit "FAILED")).

(** The order of two rendered subsections whose paths are array indices. *)
Definition indexOrder (e e' : jsstring * list ComplianceViolation) : Prop :=
  (digitsValue (fst e) <= digitsValue (fst e'))%N.

(** A report with violations on an ordinary path and on two numbered
    paths. *)
Definition mixedReport : ComplianceReport :=
  generateComplianceReport
    [mkViolation (lit "src/b.js") (ruleIssue Eval) high;
     mkViolation (lit "404") (ruleIssue Console) low;
     mkViolation (lit "src/b.js") (ruleIssue Todo) low;
     mkViolation (lit "7") (ruleIssue Todo) low].

(** * Properties *)

(** ** Strings *)

Lemma eqb_eq (a b : jsstring) : JsString.eqb a b = true <-> a = b.
Proof.
  unfold JsString.eqb. destruct (list_eq_dec N.eq_dec a b); split; congruence.
Qed.

Lemma eqb_refl (a : jsstring) : JsString.eqb a a = true.
Proof. now apply eqb_eq. Qed.

Lemma eqb_neq (a b : jsstring) : JsString.eqb a b = false <-> a <> b.
Proof.
  unfold JsString.eqb. destruct (list_eq_dec N.eq_dec a b); split; congruence.
Qed.

Example lit_magnifier : lit "🔍" = [55357; 56589]%N.
Proof. reflexivity. Qed.

Example lit_warning : lit "⚠️" = [9888; 65039]%N.
Proof. reflexivity. Qed.

Example lit_check_mark : lit "✅" = [9989]%N.
Proof. reflexivity. Qed.

Example numberToString_12 : numberToString 12 = lit "12".
Proof. reflexivity. Qed.

Example removeFirst_ref :
  removeFirst (lit "refs/heads/") (lit "refs/heads/main") = lit "main".
Proof. reflexivity. Qed.

(** ** The rule engine as a filter of the catalog *)

Lemma analyze_catalog (filename patch : jsstring) :
  analyzeFileForCompliance filename patch
  = map (ruleViolation filename) (filter (fun k => fires k patch) catalog).
Proof.
  unfold analyzeFileForCompliance, fires, catalog.
  cbv beta iota delta [fold_left secretPatterns filter rulePattern].
  generalize (test passwordPattern patch), (test apiKeyPattern patch),
    (test secretPattern patch), (test awsPattern patch),
    (test consolePattern patch), (test todoPattern patch),
    (test lintPattern patch), (test evalPattern patch).
  intros b1 b2 b3 b4 b5 b6 b7 b8.
  destruct b1, b2, b3, b4, b5, b6, b7, b8;
    cbv beta iota zeta delta [push app map ruleViolation ruleIssue ruleSeverity];
    reflexivity.
Qed.

Lemma ruleIssue_inj (k k' : Rule) : ruleIssue k = ruleIssue k' -> k = k'.
Proof.
  destruct k, k'; intros H; try reflexivity; vm_compute in H; discriminate H.
Qed.

Lemma ofRule_map (filename : jsstring) (k : Rule) (ks : list Rule) :
  ofRule k (map (ruleViolation filename) ks)
  = map (ruleViolation filename)
      (filter (fun k' => JsString.eqb (ruleIssue k') (ruleIssue k)) ks).
Proof.
  unfold ofRule. induction ks as [|k' ks IH]; [reflexivity|].
  cbn [map filter issue ruleViolation].
  destruct (JsString.eqb (ruleIssue k') (ruleIssue k)); cbn [map]; now rewrite IH.
Qed.

Lemma filter_length_le {A} (p : A -> bool) (l : list A) :
  List.length (filter p l) <= List.length l.
Proof.
  induction l as [|a l IH]; cbn; [lia|]. destruct (p a); cbn; lia.
Qed.

Lemma filter_comm {A} (p q : A -> bool) (l : list A) :
  filter p (filter q l) = filter q (filter p l).
Proof.
  induction l as [|a l IH]; [reflexivity|]. cbn.
  destruct (p a) eqn:Hp, (q a) eqn:Hq; cbn; rewrite ?Hp, ?Hq, IH; reflexivity.
Qed.

Lemma catalog_one_each (k : Rule) :
  filter (fun k' => JsString.eqb (ruleIssue k') (ruleIssue k)) catalog = [k].
Proof. destruct k; vm_compute; reflexivity. Qed.

(** C1: whatever the file name and the diff text, the result of the rule
    engine is the catalog, in its fixed order (the four credential rules,
    console, TODO/FIXME, lint suppression, eval), restricted to the rules
    whose pattern matches; every rule contributes at most one violation,
    however often its pattern matches, and so there are at most eight. *)
Theorem analyze_at_most_once_in_catalog_order (filename patch : jsstring) :
  analyzeFileForCompliance filename patch
  = map (ruleViolation filename) (filter (fun k => fires k patch) catalog)
  /\ (forall k,
        List.length (ofRule k (analyzeFileForCompliance filename patch)) <= 1)
  /\ List.length (analyzeFileForCompliance filename patch) <= 8.
Proof.
  split; [apply analyze_catalog|]. rewrite analyze_catalog. split.
  - intros k. rewrite ofRule_map, length_map, filter_comm.
    etransitivity; [apply filter_length_le|].
    now rewrite catalog_one_each.
  - rewrite length_map.
    etransitivity; [apply filter_length_le|]. reflexivity.
Qed.

(** The scenarios of the specification and the patches of the test suite. *)
Example scenario_password :
  analyzeFileForCompliance (lit "config.js") (lit "const password = 'secret123';")
  = [mkViolation (lit "config.js") (lit "Hardcoded password detected") high].
Proof. vm_compute. reflexivity. Qed.

Example scenario_clean :
  analyzeFileForCompliance (lit "src/utils.js")
    (lit "@@ -1,3 +1,4 @@" ++ nl ++ lit " function add(a, b) { return a + b; }")
  = [].
Proof. vm_compute. reflexivity. Qed.

Example scenario_console_and_password :
  analyzeFileForCompliance (lit "src/app.js")
    (lit "@@ -1,3 +1,4 @@" ++ nl ++ lit " console.log('test');" ++ nl
     ++ lit " const password = 'secret123';")
  = [ruleViolation (lit "src/app.js") Password;
     ruleViolation (lit "src/app.js") Console].
Proof. vm_compute. reflexivity. Qed.

Example test_suite_api_key :
  analyzeFileForCompliance (lit "config.js")
    (lit "@@ -1,3 +1,4 @@" ++ nl ++ lit " const apiKey = " ++ [34%N]
     ++ lit "sk_live_12345" ++ [34%N] ++ lit ";")
  = [ruleViolation (lit "config.js") ApiKey].
Proof. vm_compute. reflexivity. Qed.

(** The word boundary of the eval rule, and white space before its
    parenthesis. *)
Example eval_word_boundary :
  fires Eval (lit "x = medieval(y)") = false
  /\ fires Eval (lit "window.eval  (y)") = true
  /\ fires Eval (lit "eval") = false.
Proof. vm_compute. repeat split. Qed.

(** An empty quoted literal is no hardcoded credential, and the quotes need
    not be of one kind. *)
Example quoted_assignment_nonempty :
  fires Password (lit "pwd = ''") = false
  /\ fires Password (lit "PassWd=" ++ [34%N] ++ lit "x'") = true.
Proof. vm_compute. repeat split. Qed.

Example analyze_repeated_match :
  analyzeFileForCompliance (lit "a.js")
    (lit "console.log(1); console.log(2); password = 'x'; console.error(3)")
  = [ruleViolation (lit "a.js") Password; ruleViolation (lit "a.js") Console].
Proof. vm_compute. reflexivity. Qed.

(** C9: the file name only ends up in the [file] field.  On one diff text,
    two file names give results of the same length that agree, position by
    position, on issue and severity; each result carries its own file name
    in every violation.  Which rules fire depends on the text alone. *)
Theorem analyze_filename_only_copied (f1 f2 patch : jsstring) :
  analyzeFileForCompliance f2 patch
  = map (fun v => mkViolation f2 (issue v) (severity v))
      (analyzeFileForCompliance f1 patch)
  /\ List.length (analyzeFileForCompliance f1 patch)
     = List.length (analyzeFileForCompliance f2 patch)
  /\ map (fun v => (issue v, severity v)) (analyzeFileForCompliance f1 patch)
     = map (fun v => (issue v, severity v)) (analyzeFileForCompliance f2 patch)
  /\ Forall (fun v => file v = f1) (analyzeFileForCompliance f1 patch)
  /\ Forall (fun v => file v = f2) (analyzeFileForCompliance f2 patch).
Proof.
  rewrite !analyze_catalog.
  generalize (filter (fun k => fires k patch) catalog) as ks. intros ks.
  rewrite !map_map, !length_map. cbn [issue severity ruleViolation].
  repeat split; try reflexivity;
    apply Forall_forall; intros v Hv; apply in_map_iff in Hv;
    destruct Hv as [k [<- _]]; reflexivity.
Qed.

(** ** Aggregation *)

(** C2: the report built from a sequence of violations has [passed] exactly
    when the sequence is empty, and its [violations] field is the sequence
    itself. *)
Theorem generate_passed_iff_empty (vs : list ComplianceViolation) :
  (passed (generateComplianceReport vs) = true <-> vs = [])
  /\ violations (generateComplianceReport vs) = vs
  /\ passed (generateComplianceReport vs)
     = Nat.eqb (List.length (violations (generateComplianceReport vs))) 0.
Proof.
  unfold generateComplianceReport; cbn [passed violations].
  repeat split; try reflexivity.
  - destruct vs; [reflexivity | discriminate].
  - intros ->. reflexivity.
Qed.

Lemma severity_partition (vs : list ComplianceViolation) :
  countSeverity high vs + countSeverity medium vs + countSeverity low vs
  = List.length vs.
Proof.
  unfold countSeverity. induction vs as [|v vs IH]; [reflexivity|].
  cbn [filter List.length]. destruct (severity v); cbn [Severity_eqb List.length]; lia.
Qed.

(** C7: the summary is the success line for the empty sequence; otherwise
    it is the failure line with the total, then the numbers of high, medium
    and low violations in that order, each printed whatever its value.  A
    severity is one of the three values, so the three numbers add up to the
    total. *)
Theorem summary_counts (vs : list ComplianceViolation) :
  match vs with
  | [] =>
      summary (generateComplianceReport vs)
      = lit "✅ All compliance checks passed!"
  | _ :: _ =>
      summary (generateComplianceReport vs)
      = lit "❌ Found " ++ numberToString (List.length vs)
        ++ lit " compliance violation(s):" ++ nl
        ++ lit "- " ++ numberToString (countSeverity high vs)
        ++ lit " high severity" ++ nl
        ++ lit "- " ++ numberToString (countSeverity medium vs)
        ++ lit " medium severity" ++ nl
        ++ lit "- " ++ numberToString (countSeverity low vs)
        ++ lit " low severity"
  end
  /\ countSeverity high vs + countSeverity medium vs + countSeverity low vs
     = List.length vs.
Proof.
  split; [|apply severity_partition].
  destruct vs as [|v vs]; reflexivity.
Qed.

Example summary_prints_zero_counts :
  summary (generateComplianceReport
             [mkViolation (lit "a.js") (ruleIssue Lint) medium])
  = lit "❌ Found 1 compliance violation(s):" ++ nl
    ++ lit "- 0 high severity" ++ nl
    ++ lit "- 1 medium severity" ++ nl
    ++ lit "- 0 low severity".
Proof. vm_compute. reflexivity. Qed.

(** ** The matcher *)

Section MatcherBound.

Variable ic : bool.

(** A matcher only moves forward: its result depends on the continuation
    only at states with no more input left than it started with. *)
Lemma matcher_forward (r : pattern) :
  forall (x : State) (c c' : Continuation),
    (forall y, List.length (rest y) <= List.length (rest x) -> c y = c' y) ->
    matcher ic r x c = matcher ic r x c'.
Proof.
  induction r as [|a|inv A| |r1 IH1 r2 IH2|r1 IH1 r2 IH2|r1 IH1|r1 IH1|r1 IH1];
    intros x c c' Hc; cbn [matcher].
  - apply Hc; lia.
  - destruct (rest x) as [|ch tl] eqn:Hx; [reflexivity|].
    destruct (_ =? _)%N; [|reflexivity]. apply Hc; cbn; lia.
  - destruct (rest x) as [|ch tl] eqn:Hx; [reflexivity|].
    destruct (xorb _ _); [|reflexivity]. apply Hc; cbn; lia.
  - destruct (xorb _ _); [|reflexivity]. apply Hc; lia.
  - apply IH1. intros y Hy. apply IH2. intros z Hz. apply Hc; lia.
  - f_equal; [apply IH1 | apply IH2]; assumption.
  - f_equal; [|apply Hc; lia].
    apply IH1. intros y Hy. destruct (sameIndex x y); [reflexivity|].
    now apply Hc.
  - assert (Hrep : forall n x,
               (forall y, List.length (rest y) <= List.length (rest x) ->
                          c y = c' y) ->
               repeatMatcher (matcher ic r1) c n x
               = repeatMatcher (matcher ic r1) c' n x).
    { induction n as [|n IHn]; intros x0 H0; cbn [repeatMatcher].
      - apply H0; lia.
      - f_equal; [|apply H0; lia].
        apply IH1. intros y Hy. destruct (sameIndex x0 y); [reflexivity|].
        apply IHn. intros z Hz. apply H0; lia. }
    now apply Hrep.
  - apply IH1. intros y Hy.
    assert (Hrep : forall n x,
               (forall y, List.length (rest y) <= List.length (rest x) ->
                          c y = c' y) ->
               repeatMatcher (matcher ic r1) c n x
               = repeatMatcher (matcher ic r1) c' n x).
    { induction n as [|n IHn]; intros x0 H0; cbn [repeatMatcher].
      - apply H0; lia.
      - f_equal; [|apply H0; lia].
        apply IH1. intros y0 Hy0. destruct (sameIndex x0 y0); [reflexivity|].
        apply IHn. intros z Hz. apply H0; lia. }
    apply Hrep. intros z Hz. apply Hc; lia.
Qed.

Lemma repeatMatcher_reject (m : State -> Continuation -> bool)
  (Hm : forall x, m x (fun _ => false) = false) (n : nat) (x : State) :
  (forall x c c',
      (forall y, List.length (rest y) <= List.length (rest x) -> c y = c' y) ->
      m x c = m x c') ->
  repeatMatcher m (fun _ => false) n x = false.
Proof.
  intros Hext. revert x. induction n as [|n IHn]; intros x; [reflexivity|].
  cbn [repeatMatcher]. rewrite orb_false_r.
  etransitivity; [|apply (Hm x)]. apply Hext. intros y _.
  destruct (sameIndex x y); [reflexivity | apply IHn].
Qed.

(** A pattern cannot match when what follows it cannot. *)
Lemma matcher_reject (r : pattern) :
  forall x : State, matcher ic r x (fun _ => false) = false.
Proof.
  induction r as [|a|inv A| |r1 IH1 r2 IH2|r1 IH1 r2 IH2|r1 IH1|r1 IH1|r1 IH1];
    intros x; cbn [matcher].
  - reflexivity.
  - destruct (rest x); [reflexivity|]. now destruct (_ =? _)%N.
  - destruct (rest x); [reflexivity|]. now destruct (xorb _ _).
  - now destruct (xorb _ _).
  - etransitivity; [|apply (IH1 x)]. apply matcher_forward.
    intros y _. apply IH2.
  - now rewrite IH1, IH2.
  - rewrite orb_false_r. etransitivity; [|apply (IH1 x)].
    apply matcher_forward. intros y _. now destruct (sameIndex x y).
  - apply repeatMatcher_reject; [exact IH1 | apply matcher_forward].
  - etransitivity; [|apply (IH1 x)]. apply matcher_forward. intros y _.
    apply repeatMatcher_reject; [exact IH1 | apply matcher_forward].
Qed.

Lemma repeatMatcher_step (r : pattern) (c : Continuation) :
  forall (n : nat) (x : State),
    List.length (rest x) <= n ->
    repeatMatcher (matcher ic r) c (S n) x = repeatMatcher (matcher ic r) c n x.
Proof.
  induction n as [|n IHn]; intros x Hx.
  - cbn [repeatMatcher].
    rewrite (@matcher_forward r x _ (fun _ => false)).
    + now rewrite matcher_reject.
    + intros y Hy. unfold sameIndex.
      replace (List.length (rest x)) with 0 in * by lia.
      replace (List.length (rest y)) with 0 by lia. reflexivity.
  - change (repeatMatcher (matcher ic r) c (S (S n)) x)
      with (matcher ic r x
              (fun y => if sameIndex x y then false
                        else repeatMatcher (matcher ic r) c (S n) y)
            || c x).
    change (repeatMatcher (matcher ic r) c (S n) x)
      with (matcher ic r x
              (fun y => if sameIndex x y then false
                        else repeatMatcher (matcher ic r) c n y)
            || c x).
    f_equal. apply matcher_forward. intros y Hy.
    unfold sameIndex. destruct (Nat.eqb_spec (List.length (rest x)) (List.length (rest y)));
      [reflexivity|].
    apply IHn. lia.
Qed.

(** The iteration bound of [repeatMatcher] is never what stops a
    repetition: any bound at least as large as the remaining input gives
    the same result. *)
Lemma repeatMatcher_bound (r : pattern) (c : Continuation) (x : State) :
  forall k : nat,
    repeatMatcher (matcher ic r) c (k + List.length (rest x)) x
    = repeatMatcher (matcher ic r) c (List.length (rest x)) x.
Proof.
  induction k as [|k IHk]; [reflexivity|].
  cbn [Nat.add]. rewrite repeatMatcher_step by lia. exact IHk.
Qed.

End MatcherBound.

(** ** Case-insensitive matching *)

Lemma isWordChar_canonicalize (a : N) :
  isWordChar (Some (canonicalize true a)) = isWordChar (Some a).
Proof.
  unfold canonicalize. cbn [andb].
  destruct (isLower a) eqn:Hl; [|reflexivity].
  unfold isWordChar. rewrite Hl. cbn [orb].
  unfold isLower in Hl. apply andb_true_iff in Hl. destruct Hl as [H1 H2].
  apply N.leb_le in H1, H2.
  assert (Hu : isUpper (a - 32) = true)
    by (unfold isUpper; apply andb_true_iff; split; apply N.leb_le; lia).
  rewrite Hu. now rewrite orb_true_r.
Qed.

Lemma isWordChar_caseEq (a b : N) :
  caseEq a b -> isWordChar (Some a) = isWordChar (Some b).
Proof.
  intros H. rewrite <- (isWordChar_canonicalize a), <- (isWordChar_canonicalize b).
  red in H. now rewrite H.
Qed.

Lemma classFound_caseEq (A : list (N * N)) (a b : N) :
  caseEq a b -> classFound true A a = classFound true A b.
Proof. unfold caseEq, classFound. now intros ->. Qed.

Lemma caseVariant_length (t t' : jsstring) :
  caseVariant t t' -> List.length t = List.length t'.
Proof. induction 1; cbn; congruence. Qed.

Lemma sameIndex_variant (x y u v : State) :
  stateVariant x y -> stateVariant u v -> sameIndex x u = sameIndex y v.
Proof.
  intros [_ Hxy] [_ Huv]. unfold sameIndex.
  now rewrite (caseVariant_length Hxy), (caseVariant_length Huv).
Qed.

Lemma stateVariant_advance (a b : N) (t t' : jsstring) :
  caseEq a b -> caseVariant t t' ->
  stateVariant (mkState (Some a) t) (mkState (Some b) t').
Proof. intros Hab Ht. split; assumption. Qed.

Lemma hd_error_variant (x y : State) :
  stateVariant x y ->
  isWordChar (hd_error (rest x)) = isWordChar (hd_error (rest y)).
Proof.
  intros [_ H]. destruct H as [|a b t t' Hab _]; [reflexivity|].
  now apply isWordChar_caseEq.
Qed.

Lemma before_variant (x y : State) :
  stateVariant x y -> isWordChar (before x) = isWordChar (before y).
Proof.
  intros [H _]. destruct (before x), (before y); try contradiction;
    [now apply isWordChar_caseEq | reflexivity].
Qed.

Section RepeatVariant.

Variables m m' : State -> Continuation -> bool.
Hypothesis m_variant :
  forall x y c c',
    stateVariant x y ->
    (forall u v, stateVariant u v -> c u = c' v) ->
    m x c = m' y c'.

Lemma repeatMatcher_variant (c c' : Continuation)
  (Hc : forall u v, stateVariant u v -> c u = c' v) :
  forall n x y,
    stateVariant x y -> repeatMatcher m c n x = repeatMatcher m' c' n y.
Proof.
  induction n as [|n IHn]; intros x y Hxy; cbn [repeatMatcher].
  - now apply Hc.
  - f_equal; [|now apply Hc].
    apply m_variant; [assumption|]. intros u v Huv.
    rewrite (sameIndex_variant Hxy Huv).
    destruct (sameIndex y v); [reflexivity | now apply IHn].
Qed.

End RepeatVariant.

(** With the [i] flag a pattern cannot tell two case variants apart. *)
Lemma matcher_variant (r : pattern) :
  forall x y c c',
    stateVariant x y ->
    (forall u v, stateVariant u v -> c u = c' v) ->
    matcher true r x c = matcher true r y c'.
Proof.
  induction r as [|a|inv A| |r1 IH1 r2 IH2|r1 IH1 r2 IH2|r1 IH1|r1 IH1|r1 IH1];
    intros x y c c' Hxy Hc; cbn [matcher].
  - now apply Hc.
  - destruct Hxy as [_ Hr]. destruct Hr as [|ch ch' tl tl' Hch Htl];
      [reflexivity|].
    red in Hch. rewrite Hch. destruct (_ =? _)%N; [|reflexivity].
    apply Hc. now apply stateVariant_advance.
  - destruct Hxy as [_ Hr]. destruct Hr as [|ch ch' tl tl' Hch Htl];
      [reflexivity|].
    rewrite (classFound_caseEq A Hch). destruct (xorb _ _); [|reflexivity].
    apply Hc. now apply stateVariant_advance.
  - rewrite (before_variant Hxy), (hd_error_variant Hxy).
    destruct (xorb _ _); [now apply Hc | reflexivity].
  - apply IH1; [assumption|]. intros u v Huv. now apply IH2.
  - f_equal; [apply IH1 | apply IH2]; assumption.
  - f_equal; [|now apply Hc].
    apply IH1; [assumption|]. intros u v Huv.
    rewrite (sameIndex_variant Hxy Huv).
    destruct (sameIndex y v); [reflexivity | now apply Hc].
  - destruct Hxy as [Hb Hr]. rewrite (caseVariant_length Hr).
    apply repeatMatcher_variant; [exact IH1 | exact Hc | now split].
  - apply IH1; [assumption|]. intros u v Huv.
    destruct Huv as [Hb Hr]. rewrite (caseVariant_length Hr).
    apply repeatMatcher_variant; [exact IH1 | exact Hc | now split].
Qed.

Lemma search_variant (r : pattern) (t t' : jsstring) :
  caseVariant t t' ->
  forall p p',
    stateVariant (mkState p t) (mkState p' t') ->
    search true r p t = search true r p' t'.
Proof.
  induction 1 as [|a b t t' Hab Ht IH]; intros p p' Hp; cbn [search].
  - f_equal. now apply matcher_variant.
  - f_equal; [now apply matcher_variant|].
    apply IH. now apply stateVariant_advance.
Qed.

Lemma test_variant (re : regexp) (t t' : jsstring) :
  ignoreCase re = true -> caseVariant t t' -> test re t = test re t'.
Proof.
  intros Hi Ht. unfold test. rewrite Hi.
  apply search_variant; [assumption|]. split; [exact I | assumption].
Qed.

Lemma caseVariant_refl (t : jsstring) : caseVariant t t.
Proof. induction t; constructor; [reflexivity | assumption]. Qed.

Lemma caseVariant_sym (t t' : jsstring) : caseVariant t t' -> caseVariant t' t.
Proof. induction 1; constructor; [symmetry|]; assumption. Qed.

(** The upper-cased text is a case variant of the text. *)
Lemma caseVariant_toUpperCase (t : jsstring) : caseVariant t (toUpperCase t).
Proof.
  induction t as [|a t IH]; cbn [toUpperCase map]; constructor; [|exact IH].
  unfold caseEq, canonicalize, isLower. cbn [andb].
  destruct ((97 <=? a)%N && (a <=? 122)%N) eqn:Hl; [|now rewrite Hl].
  apply andb_true_iff in Hl. destruct Hl as [H1 H2]. apply N.leb_le in H1, H2.
  replace (97 <=? a - 32)%N with false by (symmetry; apply N.leb_gt; lia).
  reflexivity.
Qed.

(** ** What the engine reports *)

Lemma reports_iff_fires (k : Rule) (filename patch : jsstring) :
  reports k filename patch <-> fires k patch = true.
Proof.
  unfold reports. rewrite analyze_catalog. split.
  - intros H. apply in_map_iff in H. destruct H as [k' [Hk' Hin]].
    apply filter_In in Hin. destruct Hin as [_ Hf].
    assert (k' = k) by (apply ruleIssue_inj; now injection Hk').
    now subst.
  - intros Hf. apply in_map. apply filter_In. split; [|assumption].
    destruct k; cbn; tauto.
Qed.

(** The credential rules and the TODO/FIXME rule, whose patterns carry the
    [i] flag, are reported on a text exactly when they are reported on any
    text that differs from it only in the case of Basic Latin letters. *)
Lemma flagged_rules_ignore_case (k : Rule) (filename t t' : jsstring)
  (Hk : In k caseInsensitiveRules) (Ht : caseVariant t t') :
  reports k filename t <-> reports k filename t'.
Proof.
  rewrite !reports_iff_fires. unfold fires.
  assert (Hi : ignoreCase (rulePattern k) = true).
  { cbn in Hk. destruct Hk as [<-|[<-|[<-|[<-|[<-|[]]]]]]; reflexivity. }
  now rewrite (test_variant (rulePattern k) Hi Ht).
Qed.

(** The claim as the specification words it fails: the console rule, whose
    pattern has no [i] flag, is reported on [console.log] and not on its
    upper-cased variant. *)
Lemma console_rule_case_sensitive :
  caseVariant (lit "console.log") (lit "CONSOLE.LOG")
  /\ reports Console (lit "a.js") (lit "console.log")
  /\ ~ reports Console (lit "a.js") (lit "CONSOLE.LOG").
Proof.
  split; [apply (caseVariant_toUpperCase (lit "console.log"))|].
  rewrite !reports_iff_fires. split; [vm_compute; reflexivity|].
  vm_compute. discriminate.
Qed.

(** The other two patterns without the flag behave alike. *)
Lemma unflagged_rules_case_sensitive :
  (fires Lint (lit "// eslint-disable") = true
   /\ fires Lint (toUpperCase (lit "// eslint-disable")) = false)
  /\ (fires Eval (lit "eval(x)") = true
      /\ fires Eval (toUpperCase (lit "eval(x)")) = false).
Proof. vm_compute. repeat split. Qed.

(** ** Objects as maps *)

Section ObjectLemmas.

Context {V : Type}.
Implicit Types (o : object V) (k : jsstring).

Lemma set_absent o k (w : V) :
  getOwn o k = None -> set o k w = o ++ [(k, w)].
Proof.
  induction o as [|[k' v'] o IH]; cbn; [reflexivity|].
  destruct (JsString.eqb k k'); [discriminate|].
  intros H. now rewrite IH.
Qed.

Lemma getOwn_set_same o k (w : V) : getOwn (set o k w) k = Some w.
Proof.
  induction o as [|[k' v'] o IH]; cbn.
  - now rewrite eqb_refl.
  - destruct (JsString.eqb k k') eqn:E; cbn; now rewrite E.
Qed.

Lemma set_set o k (w w' : V) : set (set o k w) k w' = set o k w'.
Proof.
  induction o as [|[k' v'] o IH]; cbn.
  - now rewrite eqb_refl.
  - destruct (JsString.eqb k k') eqn:E; cbn; rewrite E; [reflexivity|].
    now rewrite IH.
Qed.

Lemma getOwn_map (G : jsstring -> V) (l : list jsstring) k :
  getOwn (map (fun f => (f, G f)) l) k
  = if existsb (JsString.eqb k) l then Some (G k) else None.
Proof.
  induction l as [|a l IH]; cbn; [reflexivity|].
  destruct (JsString.eqb k a) eqn:E; cbn; [|exact IH].
  apply eqb_eq in E. now subst.
Qed.

Lemma set_map (G : jsstring -> V) (l : list jsstring) k (w : V) :
  NoDup l -> In k l ->
  set (map (fun f => (f, G f)) l) k w
  = map (fun f => (f, if JsString.eqb f k then w else G f)) l.
Proof.
  induction 1 as [|a l Ha Hl IH]; intros Hk; [contradiction|]. cbn.
  destruct (JsString.eqb k a) eqn:E.
  - apply eqb_eq in E. subst a. rewrite eqb_refl. f_equal.
    apply map_ext_in. intros f Hf.
    destruct (JsString.eqb f k) eqn:E'; [|reflexivity].
    apply eqb_eq in E'. now subst.
  - destruct Hk as [->|Hk]; [now rewrite eqb_refl in E|].
    rewrite IH by assumption.
    destruct (JsString.eqb a k) eqn:E'; [|reflexivity].
    apply eqb_eq in E'. subst. now rewrite eqb_refl in E.
Qed.

(** Without array-index keys the entries are the own properties in
    creation order. *)
Lemma entries_plain o :
  forallb (fun e => negb (isArrayIndex (fst e))) o = true -> entries o = o.
Proof.
  intros H. unfold entries.
  assert (H1 : filter (fun e : jsstring * V => isArrayIndex (fst e)) o = []).
  { induction o as [|e o IH]; [reflexivity|]. cbn in *.
    apply andb_true_iff in H. destruct H as [He Ho].
    apply negb_true_iff in He. rewrite He. now apply IH. }
  assert (H2 : filter (fun e : jsstring * V => negb (isArrayIndex (fst e))) o = o).
  { clear H1. induction o as [|e o IH]; [reflexivity|]. cbn in *.
    apply andb_true_iff in H. destruct H as [He Ho].
    rewrite He. f_equal. now apply IH. }
  now rewrite H1, H2.
Qed.

End ObjectLemmas.

(** ** Grouping by file *)

Lemma firstOccurrences_In (l : list jsstring) (f : jsstring) :
  In f (firstOccurrences l) <-> In f l.
Proof.
  induction l as [|a l IH]; cbn; [tauto|].
  rewrite filter_In, IH, negb_true_iff, eqb_neq.
  destruct (list_eq_dec N.eq_dec a f); [tauto|]. split; [tauto|].
  intros [H|H]; [tauto|]. right. split; [assumption | congruence].
Qed.

Lemma firstOccurrences_NoDup (l : list jsstring) : NoDup (firstOccurrences l).
Proof.
  induction l as [|a l IH]; cbn; constructor.
  - rewrite filter_In, negb_true_iff, eqb_neq. tauto.
  - now apply NoDup_filter.
Qed.

Lemma existsb_eqb_In (l : list jsstring) (f : jsstring) :
  existsb (JsString.eqb f) l = true <-> In f l.
Proof.
  rewrite existsb_exists. split.
  - intros [g [Hg E]]. apply eqb_eq in E. now subst.
  - intros H. exists f. split; [assumption | apply eqb_refl].
Qed.

Lemma firstOccurrences_snoc (l : list jsstring) (f : jsstring) :
  firstOccurrences (l ++ [f])
  = firstOccurrences l ++ (if existsb (JsString.eqb f) l then [] else [f]).
Proof.
  induction l as [|a l IH]; [reflexivity|].
  cbn [app firstOccurrences existsb]. rewrite IH, filter_app. f_equal. f_equal.
  destruct (existsb (JsString.eqb f) l); [now rewrite orb_true_r|].
  rewrite orb_false_r. cbn. now destruct (JsString.eqb f a).
Qed.

Lemma violationsOf_snoc (f : jsstring) (vs : list ComplianceViolation)
  (v : ComplianceViolation) :
  violationsOf f (vs ++ [v])
  = violationsOf f vs ++ (if JsString.eqb (file v) f then [v] else []).
Proof. unfold violationsOf. now rewrite filter_app. Qed.

Lemma violationsOf_absent (f : jsstring) (vs : list ComplianceViolation) :
  ~ In f (map file vs) -> violationsOf f vs = [].
Proof.
  unfold violationsOf. induction vs as [|v vs IH]; [reflexivity|]. cbn.
  intros H. destruct (JsString.eqb (file v) f) eqn:E.
  - apply eqb_eq in E. tauto.
  - apply IH. tauto.
Qed.

(** One pass of the grouping loop on a file that names no inherited
    property extends the grouping of the violations seen so far. *)
Lemma groupStep_plain (seen : list ComplianceViolation)
  (v : ComplianceViolation) :
  isInherited (file v) = false ->
  groupStep (groupsInOrder seen) v = Ok (groupsInOrder (seen ++ [v])).
Proof.
  intros Hv. unfold groupStep, get, groupsInOrder.
  rewrite map_app. change (map file [v]) with [file v].
  rewrite firstOccurrences_snoc, getOwn_map.
  destruct (existsb (JsString.eqb (file v)) (firstOccurrences (map file seen)))
    eqn:Hex.
  - assert (Hin : In (file v) (map file seen))
      by now apply firstOccurrences_In, existsb_eqb_In.
    apply existsb_eqb_In in Hin. rewrite Hin. cbn [truthy negb].
    rewrite getOwn_map, Hex. f_equal.
    rewrite set_map;
      [|apply firstOccurrences_NoDup | now apply existsb_eqb_In].
    rewrite app_nil_r. apply map_ext. intros f.
    rewrite violationsOf_snoc.
    destruct (JsString.eqb f (file v)) eqn:E.
    + apply eqb_eq in E. subst f. rewrite eqb_refl. reflexivity.
    + assert (E' : JsString.eqb (file v) f = false)
        by (apply eqb_neq; apply eqb_neq in E; congruence).
      rewrite E'. now rewrite app_nil_r.
  - assert (Hnin : ~ In (file v) (map file seen)).
    { intros H. apply firstOccurrences_In, existsb_eqb_In in H. congruence. }
    assert (Hex' : existsb (JsString.eqb (file v)) (map file seen) = false).
    { destruct (existsb _ (map file seen)) eqn:E; [|reflexivity].
      apply existsb_eqb_In in E. contradiction. }
    rewrite Hex', Hv. cbn [truthy negb].
    rewrite getOwn_set_same, set_set, set_absent
      by (rewrite getOwn_map; now rewrite Hex).
    f_equal. rewrite map_app. cbn [map]. f_equal.
    + apply map_ext_in. intros f Hf. rewrite violationsOf_snoc.
      destruct (JsString.eqb (file v) f) eqn:E; [|now rewrite app_nil_r].
      apply eqb_eq in E. subst f. rewrite firstOccurrences_In in Hf.
      contradiction.
    + rewrite violationsOf_snoc, eqb_refl, violationsOf_absent by assumption.
      reflexivity.
Qed.

(** One pass on a file that names an inherited property is a TypeError
    when no own property hides the inherited one. *)
Lemma groupStep_inherited (seen : list ComplianceViolation)
  (v : ComplianceViolation) :
  plainPaths seen = true -> isInherited (file v) = true ->
  groupStep (groupsInOrder seen) v = Throw TypeError.
Proof.
  intros Hseen Hv. unfold groupStep, get, groupsInOrder.
  rewrite getOwn_map.
  destruct (existsb (JsString.eqb (file v)) (firstOccurrences (map file seen)))
    eqn:Hex.
  - exfalso. apply existsb_eqb_In, firstOccurrences_In, in_map_iff in Hex.
    destruct Hex as [u [Hu Hin]]. unfold plainPaths in Hseen.
    rewrite forallb_forall in Hseen. specialize (Hseen u Hin).
    rewrite Hu, Hv in Hseen. discriminate.
  - rewrite Hv. cbn [truthy negb]. rewrite getOwn_map, Hex. reflexivity.
Qed.

Lemma plainPaths_app (a b : list ComplianceViolation) :
  plainPaths (a ++ b) = plainPaths a && plainPaths b.
Proof. apply forallb_app. Qed.

(** The grouping loop: the grouping of the specification, unless a path
    names an inherited property. *)
Lemma forOf_groupStep (vs seen : list ComplianceViolation) :
  plainPaths seen = true ->
  forOf groupStep vs (groupsInOrder seen)
  = if plainPaths vs then Ok (groupsInOrder (seen ++ vs)) else Throw TypeError.
Proof.
  revert seen. induction vs as [|v vs IH]; intros seen Hseen; cbn [forOf].
  - now rewrite app_nil_r.
  - cbn [plainPaths forallb]. fold (plainPaths vs).
    destruct (isInherited (file v)) eqn:Hv; cbn [negb andb].
    + now rewrite groupStep_inherited.
    + rewrite groupStep_plain by assumption. cbn [bind].
      rewrite IH.
      * now rewrite <- app_assoc.
      * rewrite plainPaths_app, Hseen. unfold plainPaths. cbn [forallb andb].
        now rewrite Hv.
Qed.

Lemma fold_violationLine (g : list ComplianceViolation) (markdown : jsstring) :
  fold_left (fun markdown violation => markdown ++ violationLine violation)
    g markdown
  = markdown ++ List.concat (map violationLine g).
Proof.
  revert markdown. induction g as [|v g IH]; intros markdown;
    cbn [fold_left map List.concat].
  - now rewrite app_nil_r.
  - now rewrite IH, <- app_assoc.
Qed.

Lemma fold_fileSection (es : list (jsstring * list ComplianceViolation))
  (markdown : jsstring) :
  fold_left fileSection es markdown = markdown ++ List.concat (map section es).
Proof.
  revert markdown. induction es as [|[f g] es IH]; intros markdown;
    cbn [fold_left map List.concat].
  - now rewrite app_nil_r.
  - rewrite IH. unfold fileSection, section. cbn [fst snd].
    rewrite fold_violationLine. now rewrite <- !app_assoc.
Qed.

(** ** The renderer in closed form *)

Lemma format_closed_form (report : ComplianceReport)
  (commitSha commitMessage author : jsstring) :
  formatComplianceReport report commitSha commitMessage author
  = if passed report
    then Ok (preamble report commitSha commitMessage author)
    else if plainPaths (violations report)
         then Ok (preamble report commitSha commitMessage author
                  ++ violationsHeading
                  ++ List.concat
                       (map section (entries (groupsInOrder (violations report))))
                  ++ closing)
         else Throw TypeError.
Proof.
  unfold formatComplianceReport.
  assert (Hpre :
    (((((lit "## 🔍 Compliance Report" ++ nl ++ nl)
         ++ lit "**Commit:** " ++ substring0 7 commitSha ++ nl)
        ++ lit "**Author:** " ++ author ++ nl)
       ++ lit "**Message:** " ++ commitMessage ++ nl ++ nl)
      ++ lit "---" ++ nl ++ nl)
     ++ summary report ++ nl ++ nl
    = preamble report commitSha commitMessage author).
  { unfold preamble, header. now rewrite <- !app_assoc. }
  cbv zeta. rewrite Hpre.
  destruct (passed report); cbn [negb]; [reflexivity|].
  change (@nil (jsstring * list ComplianceViolation))
    with (groupsInOrder []) at 1.
  rewrite forOf_groupStep by reflexivity. cbn [app].
  destruct (plainPaths (violations report)); cbn [bind]; [|reflexivity].
  rewrite fold_fileSection. unfold closing, violationsHeading.
  now rewrite <- !app_assoc.
Qed.

(** C6, at the input where the code departs from it.  The report of a
    single violation on a file named [toString] is not passed, yet the
    renderer produces no document for it, so no Violations section either:
    it ends with a TypeError.  For every report without a path naming an
    inherited property the renderer returns, and returns the preamble alone
    when the report is passed and otherwise the preamble, the Violations
    heading, the subsections of all files and the closing lines. *)
Theorem inherited_path_renders_no_section
  (commitSha commitMessage author : jsstring) :
  let report :=
    generateComplianceReport
      [mkViolation (lit "toString") (ruleIssue Todo) low] in
  passed report = false
  /\ formatComplianceReport report commitSha commitMessage author
     = Throw TypeError
  /\ (forall r : ComplianceReport,
        plainPaths (violations r) = true ->
        formatComplianceReport r commitSha commitMessage author
        = Ok (if passed r
              then preamble r commitSha commitMessage author
              else preamble r commitSha commitMessage author
                   ++ violationsHeading
                   ++ List.concat
                        (map section (entries (groupsInOrder (violations r))))
                   ++ closing)).
Proof.
  intros report. split; [reflexivity|]. split.
  - rewrite format_closed_form.
    change (passed report) with false.
    replace (plainPaths (violations report)) with false
      by (vm_compute; reflexivity).
    reflexivity.
  - intros r Hr. rewrite format_closed_form, Hr. now destruct (passed r).
Qed.

(** When no path is an array index or names an inherited property, the
    document has one subsection per distinct file, the files by first
    occurrence and each file's violations in their original order. *)
Lemma render_groups_by_first_occurrence (report : ComplianceReport)
  (commitSha commitMessage author : jsstring) :
  passed report = false ->
  plainPaths (violations report) = true ->
  noIndexPaths (violations report) = true ->
  formatComplianceReport report commitSha commitMessage author
  = Ok (preamble report commitSha commitMessage author
        ++ violationsHeading
        ++ List.concat (map section (groupsInOrder (violations report)))
        ++ closing).
Proof.
  intros Hp Hplain Hidx. rewrite format_closed_form, Hp, Hplain.
  rewrite entries_plain; [reflexivity|].
  unfold groupsInOrder. rewrite forallb_forall. intros [f g] Hin.
  apply in_map_iff in Hin. destruct Hin as [f' [E Hf]].
  injection E as -> _. cbn [fst].
  apply firstOccurrences_In, in_map_iff in Hf. destruct Hf as [v [<- Hv]].
  unfold noIndexPaths in Hidx. rewrite forallb_forall in Hidx. now apply Hidx.
Qed.

(** C3, at the inputs where the code departs from it.  With violations on
    [src/b.js] and then on a file named [404], the specification's grouping
    has [src/b.js] first, but the document lists [404] first: an object
    enumerates its array-index keys before its other keys.  With a violation
    on a file named [constructor] no document is produced at all. *)
Theorem numeric_paths_listed_first (commitSha commitMessage author : jsstring) :
  let v1 := mkViolation (lit "src/b.js") (ruleIssue Eval) high in
  let v2 := mkViolation (lit "404") (ruleIssue Console) low in
  let report := generateComplianceReport [v1; v2] in
  groupsInOrder [v1; v2] = [(lit "src/b.js", [v1]); (lit "404", [v2])]
  /\ formatComplianceReport report commitSha commitMessage author
     = Ok (preamble report commitSha commitMessage author
           ++ violationsHeading
           ++ section (lit "404", [v2])
           ++ section (lit "src/b.js", [v1])
           ++ closing)
  /\ formatComplianceReport
       (generateComplianceReport
          [mkViolation (lit "constructor") (ruleIssue Eval) high])
       commitSha commitMessage author
     = Throw TypeError.
Proof.
  intros v1 v2 report. split; [vm_compute; reflexivity|].
  rewrite !format_closed_form. split.
  - change (passed report) with false.
    change (plainPaths (violations report)) with (plainPaths [v1; v2]).
    replace (plainPaths [v1; v2]) with true by (vm_compute; reflexivity).
    replace (entries (groupsInOrder (violations report)))
      with [(lit "404", [v2]); (lit "src/b.js", [v1])]
      by (vm_compute; reflexivity).
    cbn [map List.concat]. now rewrite app_nil_r, <- !app_assoc.
  - cbn [passed violations generateComplianceReport List.length Nat.eqb].
    replace (plainPaths _) with false by (vm_compute; reflexivity).
    reflexivity.
Qed.

(** ** The push handler *)

Lemma fold_analyzeCommit_snd (octokit : Octokit) (payload : PushPayload)
  (cs : list Commit) :
  forall (log log' : list LogEntry) (vs : list ComplianceViolation),
    snd (fold_left (analyzeCommit octokit payload) cs (log, vs))
    = snd (fold_left (analyzeCommit octokit payload) cs (log', vs)).
Proof.
  induction cs as [|c cs IH]; intros log log' vs; [reflexivity|].
  cbn [fold_left]. unfold analyzeCommit at 2 4.
  destruct (reposGetCommit octokit _ _ _) as [reason|[files|]]; apply IH.
Qed.

Lemma arrayGet_last {A} (l : list A) :
  arrayGet l (Z.of_nat (List.length l) - 1)
  = match rev l with
    | [] => None
    | a :: _ => Some a
    end.
Proof.
  unfold arrayGet. destruct l as [|a0 l0] using rev_ind; [reflexivity|].
  rewrite rev_app_distr, length_app. cbn [rev app List.length].
  destruct (Z.ltb_spec (Z.of_nat (List.length l0 + 1) - 1) 0); [lia|].
  replace (Z.to_nat (Z.of_nat (List.length l0 + 1) - 1)) with (List.length l0)
    by lia.
  now rewrite nth_error_app2, Nat.sub_diag by lia.
Qed.

(** The outcome of the handler in closed form. *)
Lemma onPush_closed_form (octokit : Octokit) (payload : PushPayload) :
  snd (onPush octokit payload)
  = if analysedBranch payload
    then match rev (commits payload) with
         | [] => Failed TypeError
         | latestCommit :: _ =>
             match formatComplianceReport (pushReport octokit payload)
                     (id latestCommit) (message latestCommit)
                     (authorName latestCommit) with
             | Throw e => Failed e
             | Ok reportBody =>
                 match issuesCreate octokit
                         (requestFor octokit payload latestCommit reportBody) with
                 | IssueRejected error =>
                     Refused (requestFor octokit payload latestCommit reportBody)
                       error
                 | IssueResolved =>
                     Created (requestFor octokit payload latestCommit reportBody)
                 end
             end
         end
    else Skipped.
Proof.
  unfold onPush, analysedBranch, requestFor, pushReport, collected.
  cbv zeta.
  destruct (JsString.eqb _ (lit "main")), (JsString.eqb _ (lit "master"));
    cbn [negb andb orb]; try reflexivity.
  all: rewrite arrayGet_last;
    match goal with
    | |- context [fold_left ?f ?cs (?log, [])] =>
        rewrite (fold_analyzeCommit_snd octokit payload cs [] log []);
        destruct (fold_left f cs (log, [])) as [log' vs]
    end;
    cbn [snd];
    destruct (rev (commits payload)) as [|c cs]; [reflexivity|];
    destruct (formatComplianceReport _ _ _ _); [|reflexivity];
    destruct (passed (generateComplianceReport vs)); cbv iota;
    destruct (issuesCreate octokit _); reflexivity.
Qed.

Lemma Ok_inj {A} (a b : A) : Ok a = Ok b -> a = b.
Proof. congruence. Qed.

Lemma rev_head {A} (l tl : list A) (a : A) :
  rev l = a :: tl -> l = rev tl ++ [a].
Proof.
  intros H. rewrite <- (rev_involutive l), H. reflexivity.
Qed.

Lemma onPush_created (octokit : Octokit) (payload : PushPayload)
  (request : IssueRequest) :
  snd (onPush octokit payload) = Created request ->
  exists c cs doc,
    rev (commits payload) = c :: cs
    /\ formatComplianceReport (pushReport octokit payload) (id c) (message c)
         (authorName c) = Ok doc
    /\ request
       = mkIssueRequest (repositoryOwner payload) (repositoryName payload)
           ((if passed (pushReport octokit payload)
             then lit "✅ Compliance Check Passed - "
             else lit "❌ Compliance Violations Detected - ")
            ++ substring0 7 (id c))
           doc
           [lit "compliance";
            if passed (pushReport octokit payload)
            then lit "passed" else lit "violation"].
Proof.
  intros H. rewrite onPush_closed_form in H.
  destruct (analysedBranch payload); [|discriminate].
  destruct (rev (commits payload)) as [|c cs] eqn:Hrev; [discriminate|].
  destruct (formatComplianceReport _ _ _ _) as [doc|] eqn:Hdoc; [|discriminate].
  destruct (issuesCreate octokit _); [discriminate|]. unfold requestFor in H.
  exists c, cs, doc. split; [reflexivity|]. split; [exact Hdoc|]. congruence.
Qed.

Lemma format_starts_with_header (report : ComplianceReport)
  (commitSha commitMessage author doc : jsstring) :
  formatComplianceReport report commitSha commitMessage author = Ok doc ->
  exists more, doc = header commitSha commitMessage author ++ more.
Proof.
  rewrite format_closed_form. unfold preamble.
  destruct (passed report).
  - intros H. apply Ok_inj in H. subst doc. eexists. reflexivity.
  - destruct (plainPaths _); [|discriminate].
    intros H. apply Ok_inj in H. subst doc. rewrite <- app_assoc.
    eexists. reflexivity.
Qed.

(** A push to an analysed branch ends in an issue when it has a commit, no
    collected violation is on a path naming an inherited property and the
    API accepts the request; without a commit it always ends in a
    TypeError. *)
Lemma onPush_creates (octokit : Octokit) (payload : PushPayload) :
  analysedBranch payload = true ->
  commits payload <> [] ->
  plainPaths (collected octokit payload) = true ->
  (forall request, issuesCreate octokit request = IssueResolved) ->
  exists request, snd (onPush octokit payload) = Created request.
Proof.
  intros Hb Hc Hp Hi. rewrite onPush_closed_form, Hb.
  destruct (rev (commits payload)) as [|c cs] eqn:Hrev.
  - exfalso. apply Hc. rewrite <- (rev_involutive (commits payload)), Hrev.
    reflexivity.
  - rewrite format_closed_form.
    change (violations (pushReport octokit payload))
      with (collected octokit payload).
    rewrite Hp. destruct (passed (pushReport octokit payload));
      rewrite Hi; eexists; reflexivity.
Qed.

Lemma onPush_no_commits (octokit : Octokit) (payload : PushPayload) :
  analysedBranch payload = true ->
  commits payload = [] ->
  snd (onPush octokit payload) = Failed TypeError.
Proof.
  intros Hb Hc. rewrite onPush_closed_form, Hb, Hc. reflexivity.
Qed.

Lemma onPush_other_branch (octokit : Octokit) (payload : PushPayload) :
  analysedBranch payload = false -> snd (onPush octokit payload) = Skipped.
Proof. intros Hb. now rewrite onPush_closed_form, Hb. Qed.

(** C4, at the input where the code departs from it: on a push to [main]
    without commits the handler ends with a TypeError, whatever the remote
    API answers, and creates no issue, although the report of such a push is
    a passing one. *)
Theorem empty_push_fails (octokit : Octokit) :
  snd (onPush octokit emptyPush) = Failed TypeError
  /\ passed (pushReport octokit emptyPush) = true
  /\ violations (pushReport octokit emptyPush) = [].
Proof. repeat split. Qed.

(** C8: the issue a push leads to carries two labels: [compliance], and
    then [passed] when the report of the push is passed, [violation] when it
    is not. *)
Theorem labels_compliance_and_verdict (octokit : Octokit)
  (payload : PushPayload) (request : IssueRequest)
  (H : snd (onPush octokit payload) = Created request) :
  (passed (pushReport octokit payload) = true
   /\ labels request = [lit "compliance"; lit "passed"])
  \/ (passed (pushReport octokit payload) = false
      /\ labels request = [lit "compliance"; lit "violation"]).
Proof.
  apply onPush_created in H. destruct H as [c [cs [doc [_ [_ ->]]]]].
  cbn [labels].
  destruct (passed (pushReport octokit payload)); [left | right]; now split.
Qed.

Lemma labels_compliance_and_verdict_witness :
  snd (onPush sampleOctokit samplePush) = Created sampleRequest
  /\ ((passed (pushReport sampleOctokit samplePush) = true
       /\ labels sampleRequest = [lit "compliance"; lit "passed"])
      \/ (passed (pushReport sampleOctokit samplePush) = false
          /\ labels sampleRequest = [lit "compliance"; lit "violation"])).
Proof.
  assert (H : snd (onPush sampleOctokit samplePush) = Created sampleRequest)
    by (vm_compute; reflexivity).
  split; [exact H|].
  exact (@labels_compliance_and_verdict sampleOctokit samplePush sampleRequest H).
Defined.

(** C10: the issue a push leads to is titled with the abbreviated id of the
    last commit of the push, and its body is the report of the whole push
    rendered with the id, message and author name of that last commit, so
    the body starts with the header made of them. *)
Theorem issue_names_last_commit (octokit : Octokit) (payload : PushPayload)
  (request : IssueRequest)
  (H : snd (onPush octokit payload) = Created request) :
  exists earlier latestCommit,
    commits payload = earlier ++ [latestCommit]
    /\ title request
       = (if passed (pushReport octokit payload)
          then lit "✅ Compliance Check Passed - "
          else lit "❌ Compliance Violations Detected - ")
         ++ substring0 7 (id latestCommit)
    /\ formatComplianceReport (pushReport octokit payload) (id latestCommit)
         (message latestCommit) (authorName latestCommit)
       = Ok (body request)
    /\ exists more,
         body request
         = header (id latestCommit) (message latestCommit)
             (authorName latestCommit)
           ++ more.
Proof.
  apply onPush_created in H. destruct H as [c [cs [doc [Hrev [Hdoc ->]]]]].
  cbn [title body].
  exists (rev cs), c. split; [now apply rev_head|].
  split; [reflexivity|]. split; [exact Hdoc|].
  exact (format_starts_with_header _ _ _ _ Hdoc).
Qed.

Lemma issue_names_last_commit_witness :
  snd (onPush sampleOctokit samplePush) = Created sampleRequest
  /\ exists earlier latestCommit,
       commits samplePush = earlier ++ [latestCommit]
       /\ title sampleRequest
          = (if passed (pushReport sampleOctokit samplePush)
             then lit "✅ Compliance Check Passed - "
             else lit "❌ Compliance Violations Detected - ")
            ++ substring0 7 (id latestCommit)
       /\ formatComplianceReport (pushReport sampleOctokit samplePush)
            (id latestCommit) (message latestCommit) (authorName latestCommit)
          = Ok (body sampleRequest)
       /\ exists more,
            body sampleRequest
            = header (id latestCommit) (message latestCommit)
                (authorName latestCommit)
              ++ more.
Proof.
  assert (H : snd (onPush sampleOctokit samplePush) = Created sampleRequest)
    by (vm_compute; reflexivity).
  split; [exact H|].
  exact (@issue_names_last_commit sampleOctokit samplePush sampleRequest H).
Defined.

(** In the sample push the violations are the first commit's, and the title
    and the header are the second commit's. *)
Example sample_push_reports_last_commit :
  map file (collected sampleOctokit samplePush) = [lit "src/app.js"; lit "src/app.js"]
  /\ title sampleRequest = lit "❌ Compliance Violations Detected - 2222222"
  /\ firstn
       (List.length
          (header (lit "2222222bbbbbbbbb") (lit "Fix the docs") (lit "Bob")))
       (body sampleRequest)
     = header (lit "2222222bbbbbbbbb") (lit "Fix the docs") (lit "Bob").
Proof. vm_compute. repeat split. Qed.

(** ** The matcher against what a pattern matches *)

Lemma last_cons {A} (l : list A) :
  forall a d : A, last (a :: l) d = last l a.
Proof.
  induction l as [|b l IH]; intros a d; [reflexivity|].
  change (last (a :: b :: l) d) with (last (b :: l) d).
  now rewrite !IH.
Qed.

Lemma last_app_default {A} (l1 l2 : list A) :
  forall d : A, last (l1 ++ l2) d = last l2 (last l1 d).
Proof.
  induction l1 as [|a l1 IH]; intros d; [reflexivity|].
  cbn [app]. now rewrite !last_cons, IH.
Qed.

Lemma lastBefore_app (p : option N) (m1 m2 : list N) :
  lastBefore (lastBefore p m1) m2 = lastBefore p (m1 ++ m2).
Proof. unfold lastBefore. now rewrite map_app, last_app_default. Qed.

Lemma lastBefore_cons (p : option N) (a : N) (m : list N) :
  lastBefore p (a :: m) = lastBefore (Some a) m.
Proof. exact (eq_sym (lastBefore_app p [a] m)). Qed.

Lemma sameIndex_app (p q : option N) (mid rest : list N) :
  sameIndex (mkState p (mid ++ rest)) (mkState q rest)
  = match mid with [] => true | _ :: _ => false end.
Proof.
  unfold sameIndex. cbn [RegExp.rest]. rewrite length_app.
  destruct mid; cbn [List.length].
  - apply Nat.eqb_refl.
  - apply Nat.eqb_neq. lia.
Qed.

Section MatcherLang.

Variable ic : bool.

(** A state, taken apart. *)
Definition matches (r : pattern) (p : option N) (t : list N)
  (c : Continuation) : Prop :=
  exists mid rest, t = mid ++ rest /\ lang ic r p mid rest /\ accepts c p mid rest.

Lemma repeat_sound (r : pattern)
  (IHr : forall p t c, matcher ic r (mkState p t) c = true -> matches r p t c)
  (c : Continuation) :
  forall n p t,
    repeatMatcher (matcher ic r) c n (mkState p t) = true ->
    matches (Star r) p t c.
Proof.
  induction n as [|n IHn]; intros p t H; cbn [repeatMatcher] in H.
  - exists [], t. repeat split; [constructor | exact H].
  - apply orb_true_iff in H. destruct H as [H|H].
    + apply IHr in H. destruct H as [m1 [rest1 [-> [Hl Hk]]]].
      red in Hk. rewrite sameIndex_app in Hk.
      destruct m1 as [|a m1]; [discriminate|].
      apply IHn in Hk. destruct Hk as [m2 [rest [-> [Hl2 Hc]]]].
      exists ((a :: m1) ++ m2), rest. split; [now rewrite app_assoc|].
      split; [now constructor|].
      red. rewrite <- lastBefore_app. exact Hc.
    + exists [], t. repeat split; [constructor | exact H].
Qed.

Lemma repeat_complete (r : pattern)
  (IHr : forall p t c, matches r p t c -> matcher ic r (mkState p t) c = true)
  (c : Continuation) (sr : pattern) (p : option N) (mid rest : list N) :
  lang ic sr p mid rest ->
  sr = Star r ->
  forall n,
    List.length (mid ++ rest) <= n ->
    accepts c p mid rest ->
    repeatMatcher (matcher ic r) c n (mkState p (mid ++ rest)) = true.
Proof.
  induction 1 as [ | | | | | | | | | r0 p rest | r0 p m1 m2 rest H1 _ H2 IH2 | ];
    intros E n Hn Hc; try discriminate E; injection E as ->.
  - destruct n; cbn [repeatMatcher]; [exact Hc|].
    apply orb_true_iff. right. exact Hc.
  - destruct m1 as [|a m1].
    + apply IH2; [reflexivity | exact Hn | exact Hc].
    + destruct n as [|n]; [cbn [app List.length] in Hn; lia|].
      cbn [repeatMatcher]. apply orb_true_iff. left.
      apply IHr. exists (a :: m1), (m2 ++ rest).
      split; [now rewrite app_assoc|]. split; [exact H1|].
      red. rewrite <- app_assoc, sameIndex_app.
      apply IH2; [reflexivity | |].
      * rewrite <- app_assoc in Hn. cbn [app List.length] in Hn.
        rewrite length_app in Hn. lia.
      * red. rewrite lastBefore_app. exact Hc.
Qed.

(** The matcher accepts exactly when the pattern can match a prefix of the
    remaining input after which the continuation accepts. *)
Lemma matcher_lang (r : pattern) :
  forall p t c, matcher ic r (mkState p t) c = true <-> matches r p t c.
Proof.
  induction r as [|a|inv A| |r1 IH1 r2 IH2|r1 IH1 r2 IH2|r1 IH1|r1 IH1|r1 IH1];
    intros p t c; cbn [matcher before RegExp.rest].
  - split.
    + intros H. exists [], t. repeat split; [constructor | exact H].
    + intros [mid [rest [-> [Hl Hc]]]]. inversion Hl; subst. exact Hc.
  - split.
    + destruct t as [|ch tl]; [discriminate|].
      destruct (_ =? _)%N eqn:E; [|discriminate]. intros H.
      apply N.eqb_eq in E. exists [ch], tl. repeat split; [now constructor | exact H].
    + intros [mid [rest [-> [Hl Hc]]]]. inversion Hl; subst. cbn [app].
      rewrite (proj2 (N.eqb_eq _ _)) by assumption. exact Hc.
  - split.
    + destruct t as [|ch tl]; [discriminate|].
      destruct (xorb _ _) eqn:E; [|discriminate]. intros H.
      exists [ch], tl. repeat split; [now constructor | exact H].
    + intros [mid [rest [-> [Hl Hc]]]]. inversion Hl; subst. cbn [app].
      match goal with H : xorb _ _ = true |- _ => rewrite H end. exact Hc.
  - split.
    + destruct (xorb _ _) eqn:E; [|discriminate]. intros H.
      exists [], t. repeat split; [now constructor | exact H].
    + intros [mid [rest [-> [Hl Hc]]]]. inversion Hl; subst. cbn [app].
      match goal with H : xorb _ _ = true |- _ => rewrite H end. exact Hc.
  - rewrite IH1. split.
    + intros [m1 [rest1 [-> [Hl1 Hk]]]]. red in Hk. apply IH2 in Hk.
      destruct Hk as [m2 [rest [-> [Hl2 Hc]]]].
      exists (m1 ++ m2), rest. split; [now rewrite app_assoc|].
      split; [now constructor|]. red. rewrite <- lastBefore_app. exact Hc.
    + intros [mid [rest [-> [Hl Hc]]]]. inversion Hl; subst.
      exists m1, (m2 ++ rest). split; [now rewrite app_assoc|].
      split; [assumption|]. red. apply IH2.
      exists m2, rest. repeat split; [assumption|].
      red. rewrite lastBefore_app. exact Hc.
  - rewrite orb_true_iff, IH1, IH2. split.
    + intros [[mid [rest [-> [Hl Hc]]]]|[mid [rest [-> [Hl Hc]]]]];
        exists mid, rest; repeat split; try assumption;
        [now apply lang_Alt_l | now apply lang_Alt_r].
    + intros [mid [rest [-> [Hl Hc]]]]. inversion Hl; subst;
        [left | right]; exists mid, rest; now repeat split.
  - rewrite orb_true_iff, IH1. split.
    + intros [[mid [rest [-> [Hl Hk]]]]|H].
      * red in Hk. rewrite sameIndex_app in Hk.
        destruct mid as [|a mid]; [discriminate|].
        exists (a :: mid), rest. repeat split; [now apply lang_Opt_some | exact Hk].
      * exists [], t. repeat split; [apply lang_Opt_none | exact H].
    + intros [mid [rest [-> [Hl Hc]]]].
      destruct mid as [|a mid]; [right; exact Hc|].
      inversion Hl; subst. left.
      exists (a :: mid), rest. repeat split; [assumption|].
      red. rewrite sameIndex_app. exact Hc.
  - split.
    + apply repeat_sound. intros p0 t0 c0. apply IH1.
    + intros [mid [rest [-> [Hl Hc]]]].
      apply (@repeat_complete r1 (fun p0 t0 c0 => proj2 (IH1 p0 t0 c0)) c
               (Star r1) p mid rest Hl eq_refl); [reflexivity | exact Hc].
  - rewrite IH1. split.
    + intros [m1 [rest1 [-> [Hl1 Hk]]]]. red in Hk.
      apply (@repeat_sound r1 (fun p0 t0 c0 => proj1 (IH1 p0 t0 c0))) in Hk.
      destruct Hk as [m2 [rest [-> [Hl2 Hc]]]].
      exists (m1 ++ m2), rest. split; [now rewrite app_assoc|].
      split; [now constructor|]. red. rewrite <- lastBefore_app. exact Hc.
    + intros [mid [rest [-> [Hl Hc]]]]. inversion Hl; subst.
      exists m1, (m2 ++ rest). split; [now rewrite app_assoc|].
      split; [assumption|]. red. cbn [RegExp.rest].
      apply (@repeat_complete r1 (fun p0 t0 c0 => proj2 (IH1 p0 t0 c0)) c
               (Star r1) _ m2 rest); [assumption | reflexivity | reflexivity |].
      red. rewrite lastBefore_app. exact Hc.
Qed.

(** [search] finds a match exactly when the pattern can match somewhere in
    the text. *)
Lemma search_lang (r : pattern) (t : list N) :
  forall p,
    search ic r p t = true
    <-> exists pre mid post,
          t = pre ++ mid ++ post /\ lang ic r (lastBefore p pre) mid post.
Proof.
  induction t as [|ch tl IH]; intros p; cbn [search];
    rewrite orb_true_iff, matcher_lang.
  - split.
    + intros [[mid [rest [E [Hl _]]]]|H]; [|discriminate].
      exists [], mid, rest. now split.
    + intros [pre [mid [post [E Hl]]]].
      destruct pre; [|discriminate]. left. exists mid, post.
      repeat split; assumption.
  - rewrite IH. split.
    + intros [[mid [rest [E [Hl _]]]]|[pre [mid [post [E Hl]]]]].
      * exists [], mid, rest. now split.
      * exists (ch :: pre), mid, post. split; [now rewrite E|].
        now rewrite lastBefore_cons.
    + intros [pre [mid [post [E Hl]]]]. destruct pre as [|a pre].
      * left. exists mid, post. repeat split; assumption.
      * right. injection E as -> ->. exists pre, mid, post.
        split; [reflexivity|]. now rewrite <- lastBefore_cons with (p := p).
Qed.

End MatcherLang.

Lemma test_lang (re : regexp) (t : jsstring) :
  test re t = true
  <-> exists pre mid post,
        t = pre ++ mid ++ post
        /\ lang (ignoreCase re) (source re) (lastBefore None pre) mid post.
Proof. apply search_lang. Qed.

(** ** Patterns taken apart *)

Section LangInversion.

Variable ic : bool.

Lemma lang_Seq_iff (r1 r2 : pattern) (p : option N) (mid rest : list N) :
  lang ic (Seq r1 r2) p mid rest
  <-> exists m1 m2,
        mid = m1 ++ m2
        /\ lang ic r1 p m1 (m2 ++ rest)
        /\ lang ic r2 (lastBefore p m1) m2 rest.
Proof.
  split.
  - intros H. inversion H; subst. now exists m1, m2.
  - intros [m1 [m2 [-> [H1 H2]]]]. now constructor.
Qed.

Lemma lang_Alt_iff (r1 r2 : pattern) (p : option N) (mid rest : list N) :
  lang ic (Alt r1 r2) p mid rest
  <-> lang ic r1 p mid rest \/ lang ic r2 p mid rest.
Proof.
  split.
  - intros H. inversion H; subst; tauto.
  - intros [H|H]; [now apply lang_Alt_l | now apply lang_Alt_r].
Qed.

Lemma lang_Char_iff (a : N) (p : option N) (mid rest : list N) :
  lang ic (Char a) p mid rest
  <-> exists ch, mid = [ch] /\ canonicalize ic ch = canonicalize ic a.
Proof.
  split.
  - intros H. inversion H; subst. now exists ch.
  - intros [ch [-> H]]. now constructor.
Qed.

Lemma lang_Class_iff (invert : bool) (A : list (N * N)) (p : option N)
  (mid rest : list N) :
  lang ic (Class invert A) p mid rest
  <-> exists ch, mid = [ch] /\ xorb invert (classFound ic A ch) = true.
Proof.
  split.
  - intros H. inversion H; subst. now exists ch.
  - intros [ch [-> H]]. now constructor.
Qed.

Lemma lang_Opt_iff (r : pattern) (p : option N) (mid rest : list N) :
  lang ic (Opt r) p mid rest <-> mid = [] \/ lang ic r p mid rest.
Proof.
  split.
  - intros H. inversion H; subst; tauto.
  - intros [->|H]; [apply lang_Opt_none | now apply lang_Opt_some].
Qed.

Lemma lang_WordBoundary_iff (p : option N) (mid rest : list N) :
  lang ic WordBoundary p mid rest
  <-> mid = [] /\ xorb (isWordChar p) (isWordChar (hd_error rest)) = true.
Proof.
  split.
  - intros H. inversion H; subst. now split.
  - intros [-> H]. now constructor.
Qed.

(** A repeated class matches the runs of its members. *)
Lemma lang_Star_Class (invert : bool) (A : list (N * N)) (mid : list N) :
  forall p rest,
    lang ic (Star (Class invert A)) p mid rest
    <-> Forall (fun ch => xorb invert (classFound ic A ch) = true) mid.
Proof.
  intros p rest. split.
  - intros H. remember (Star (Class invert A)) as sr eqn:E.
    induction H; try discriminate E; injection E as ->; [constructor|].
    apply Forall_app. split; [|now apply IHlang2].
    apply lang_Class_iff in H. destruct H as [ch [-> H]]. now repeat constructor.
  - revert p. induction mid as [|ch mid IH]; intros p H; [constructor|].
    inversion H; subst.
    apply (@lang_Star_cons ic (Class invert A) p [ch] mid rest);
      [now constructor | now apply IH].
Qed.

Lemma lang_Plus_Class (invert : bool) (A : list (N * N)) (p : option N)
  (mid rest : list N) :
  lang ic (Plus (Class invert A)) p mid rest
  <-> mid <> []
      /\ Forall (fun ch => xorb invert (classFound ic A ch) = true) mid.
Proof.
  split.
  - intros H. inversion H; subst.
    match goal with H : lang _ (Class _ _) _ _ _ |- _ =>
      apply lang_Class_iff in H; destruct H as [ch [-> Hch]] end.
    split; [discriminate|]. constructor; [assumption|].
    now apply (lang_Star_Class invert A m2 (lastBefore p [ch]) rest).
  - intros [Hne H]. destruct mid as [|ch mid]; [contradiction|].
    inversion H; subst.
    apply (@lang_Plus ic (Class invert A) p [ch] mid rest);
      [now constructor | now apply lang_Star_Class].
Qed.

Lemma sameUnder_app (m1 m2 w1 w2 : list N) :
  sameUnder ic m1 w1 -> sameUnder ic m2 w2 -> sameUnder ic (m1 ++ m2) (w1 ++ w2).
Proof. apply Forall2_app. Qed.

Lemma sameUnder_app_inv (mid w1 w2 : list N) :
  sameUnder ic mid (w1 ++ w2) ->
  exists m1 m2, mid = m1 ++ m2 /\ sameUnder ic m1 w1 /\ sameUnder ic m2 w2.
Proof.
  intros H. apply Forall2_app_inv_r in H.
  destruct H as [m1 [m2 [H1 [H2 ->]]]]. now exists m1, m2.
Qed.

Lemma canonicalize_not_letter (a : N) :
  isLetter a = false -> canonicalize ic a = a.
Proof.
  unfold isLetter, canonicalize. intros H. apply orb_false_iff in H.
  destruct H as [-> _]. now rewrite andb_false_r.
Qed.

Lemma canonicalize_letter (ch : N) :
  isLetter ch = true -> isLetter (canonicalize ic ch) = true.
Proof.
  unfold canonicalize, isLetter. intros H.
  destruct (ic && isLower ch) eqn:E; [|exact H].
  apply andb_true_iff in E. destruct E as [_ E].
  unfold isLower, isUpper in *. apply andb_true_iff in E. destruct E as [E1 E2].
  apply N.leb_le in E1, E2. apply orb_true_iff. right.
  apply andb_true_iff. split; apply N.leb_le; lia.
Qed.

Lemma canonicalize_to_not_letter (ch a : N) :
  isLetter a = false -> canonicalize ic ch = a -> ch = a.
Proof.
  intros Ha E. destruct (isLetter ch) eqn:Hch.
  - apply canonicalize_letter in Hch. rewrite E in Hch. congruence.
  - now rewrite canonicalize_not_letter in E.
Qed.

(** In a class without letters the [i] flag changes nothing. *)
Lemma classFound_no_letters (A : list (N * N)) (ch : N) :
  (forall c, isLetter c = true -> inRanges A c = false) ->
  classFound ic A ch = inRanges A ch.
Proof.
  intros HA. unfold classFound.
  destruct (isLetter ch) eqn:Hch.
  - rewrite (HA ch Hch), (HA _ (canonicalize_letter ch Hch)). cbn [orb].
    destruct ic; [|reflexivity]. cbn [andb].
    destruct (isUpper (canonicalize true ch)) eqn:Hu; [|reflexivity].
    cbn [andb]. apply HA. unfold isLetter, isLower, isUpper in *.
    apply andb_true_iff in Hu. destruct Hu as [H1 H2]. apply N.leb_le in H1, H2.
    apply orb_true_iff. left. apply andb_true_iff. split; apply N.leb_le; lia.
  - rewrite canonicalize_not_letter by assumption.
    unfold isLetter in Hch. apply orb_false_iff in Hch. destruct Hch as [_ ->].
    now rewrite andb_false_r, orb_false_r.
Qed.

Lemma inRanges_singletons (A : list (N * N)) (x : N) :
  singletons A = true ->
  (inRanges A x = true <-> exists e, In e A /\ x = fst e)
  /\ (forall e, In e A -> isLetter (fst e) = false).
Proof.
  unfold singletons, inRanges. intros H. rewrite forallb_forall in H. split.
  - rewrite existsb_exists. split.
    + intros [[lo hi] [Hin Hx]]. exists (lo, hi). split; [assumption|].
      specialize (H _ Hin). cbn in H. apply andb_true_iff in H.
      destruct H as [H _]. apply N.eqb_eq in H. subst hi.
      apply andb_true_iff in Hx. destruct Hx as [H1 H2].
      apply N.leb_le in H1, H2. cbn. lia.
    + intros [[lo hi] [Hin ->]]. exists (lo, hi). split; [assumption|].
      specialize (H _ Hin). cbn in H. apply andb_true_iff in H.
      destruct H as [H _]. apply N.eqb_eq in H. subst hi. cbn [fst].
      apply andb_true_iff. split; apply N.leb_le; lia.
  - intros [lo hi] Hin. specialize (H _ Hin). cbn in H.
    apply andb_true_iff in H. destruct H as [_ H]. now apply negb_true_iff in H.
Qed.

(** A pattern with a finite list of words matches the runs that are the
    same as one of its words. *)
Lemma lang_literals (r : pattern) :
  forall ws,
    literalsOf r = Some ws ->
    forall p mid rest,
      lang ic r p mid rest <-> exists w, In w ws /\ sameUnder ic mid w.
Proof.
  induction r as [|a|inv A| |r1 IH1 r2 IH2|r1 IH1 r2 IH2|r1 IH1|r1 IH1|r1 IH1];
    intros ws E p mid rest; cbn [literalsOf] in E; try discriminate E.
  - injection E as <-. split.
    + intros H. inversion H; subst. exists []. split; [now left | constructor].
    + intros [w [[<-|[]] H]]. inversion H; subst. constructor.
  - injection E as <-. rewrite lang_Char_iff. split.
    + intros [ch [-> H]]. exists [a]. split; [now left|]. now repeat constructor.
    + intros [w [[<-|[]] H]]. inversion H as [|ch a' l l' Hc Hl]; subst.
      inversion Hl; subst. now exists ch.
  - destruct inv; [discriminate|]. cbn [negb andb] in E.
    destruct (singletons A) eqn:HA; [|discriminate]. injection E as <-.
    rewrite lang_Class_iff. cbn [xorb].
    assert (Hno : forall c, isLetter c = true -> inRanges A c = false).
    { intros c Hc. destruct (inRanges A c) eqn:Hin; [|reflexivity].
      apply (proj1 (inRanges_singletons A c HA)) in Hin.
      destruct Hin as [e [He ->]].
      rewrite (proj2 (inRanges_singletons A (fst e) HA) e He) in Hc.
      discriminate. }
    split.
    + intros [ch [-> H]]. rewrite classFound_no_letters in H by assumption.
      apply (proj1 (inRanges_singletons A ch HA)) in H.
      destruct H as [e [He ->]]. exists [fst e].
      split; [now apply (in_map (fun e => [fst e]))|]. now repeat constructor.
    + intros [w [Hw H]]. apply in_map_iff in Hw. destruct Hw as [e [<- He]].
      inversion H as [|ch a' l l' Hc Hl]; subst. inversion Hl; subst.
      exists ch. split; [reflexivity|].
      rewrite classFound_no_letters by assumption.
      apply (proj1 (inRanges_singletons A ch HA)). exists e.
      split; [assumption|].
      pose proof (proj2 (inRanges_singletons A ch HA) e He) as Hl'.
      rewrite (canonicalize_not_letter _ Hl') in Hc.
      now apply canonicalize_to_not_letter in Hc.
  - destruct (literalsOf r1) as [ws1|]; [|discriminate].
    destruct (literalsOf r2) as [ws2|]; [|discriminate]. injection E as <-.
    rewrite lang_Seq_iff. split.
    + intros [m1 [m2 [-> [H1 H2]]]].
      apply (IH1 ws1 eq_refl) in H1. apply (IH2 ws2 eq_refl) in H2.
      destruct H1 as [w1 [Hw1 Hs1]]. destruct H2 as [w2 [Hw2 Hs2]].
      exists (w1 ++ w2). split; [|now apply sameUnder_app].
      apply in_flat_map. exists w1. split; [assumption|]. now apply in_map.
    + intros [w [Hw Hs]]. apply in_flat_map in Hw.
      destruct Hw as [w1 [Hw1 Hw]]. apply in_map_iff in Hw.
      destruct Hw as [w2 [<- Hw2]]. apply sameUnder_app_inv in Hs.
      destruct Hs as [m1 [m2 [-> [Hs1 Hs2]]]]. exists m1, m2.
      split; [reflexivity|]. split.
      * apply (IH1 ws1 eq_refl). now exists w1.
      * apply (IH2 ws2 eq_refl). now exists w2.
  - destruct (literalsOf r1) as [ws1|]; [|discriminate].
    destruct (literalsOf r2) as [ws2|]; [|discriminate]. injection E as <-.
    rewrite lang_Alt_iff, (IH1 ws1 eq_refl), (IH2 ws2 eq_refl). split.
    + intros [[w [Hw Hs]]|[w [Hw Hs]]]; exists w;
        (split; [apply in_or_app; tauto | assumption]).
    + intros [w [Hw Hs]]. apply in_app_or in Hw.
      destruct Hw as [Hw|Hw]; [left | right]; now exists w.
  - destruct (literalsOf r1) as [ws1|]; [|discriminate]. injection E as <-.
    rewrite lang_Opt_iff, (IH1 ws1 eq_refl). split.
    + intros [->|[w [Hw Hs]]].
      * exists []. split; [now left | constructor].
      * exists w. split; [now right | assumption].
    + intros [w [[<-|Hw] Hs]].
      * left. now inversion Hs.
      * right. now exists w.
Qed.

(** The context of a match only matters to a word boundary. *)
Lemma lang_boundaryFree (r : pattern) (p : option N) (mid rest : list N) :
  lang ic r p mid rest ->
  boundaryFree r = true ->
  forall p' rest', lang ic r p' mid rest'.
Proof.
  induction 1; cbn [boundaryFree]; intros Hb p' rest';
    try apply andb_true_iff in Hb; try discriminate Hb.
  - constructor.
  - now constructor.
  - now constructor.
  - destruct Hb. constructor; auto.
  - destruct Hb. apply lang_Alt_l; auto.
  - destruct Hb. apply lang_Alt_r; auto.
  - apply lang_Opt_none.
  - apply lang_Opt_some; auto.
  - apply lang_Star_nil.
  - apply lang_Star_cons; auto.
  - apply lang_Plus; auto.
Qed.

End LangInversion.

(** ** The rules, pattern by pattern *)

Lemma occursIn_prefix (ic : bool) (w u t : jsstring) :
  occursIn ic (w ++ u) t -> occursIn ic w t.
Proof.
  intros [pre [mid [post [-> H]]]]. apply sameUnder_app_inv in H.
  destruct H as [m1 [m2 [-> [H1 _]]]].
  exists pre, m1, (m2 ++ post). split; [now rewrite <- app_assoc | assumption].
Qed.

Lemma sameUnder_false (mid w : list N) : sameUnder false mid w <-> mid = w.
Proof.
  split.
  - induction 1 as [|a b l l' Hab _ IH]; [reflexivity|].
    cbn in Hab. now subst.
  - intros ->. induction w; constructor; [reflexivity | assumption].
Qed.

(** A rule whose pattern has a finite list of words fires exactly when one
    of the words occurs in the text. *)
Lemma fires_literals (k : Rule) (ws : list (list N)) (t : jsstring) :
  literalsOf (source (rulePattern k)) = Some ws ->
  (fires k t = true
   <-> exists w, In w ws /\ occursIn (ignoreCase (rulePattern k)) w t).
Proof.
  intros E. unfold fires. rewrite test_lang. split.
  - intros [pre [mid [post [-> H]]]].
    apply (lang_literals _ _ E) in H. destruct H as [w [Hw Hs]].
    exists w. split; [assumption|]. now exists pre, mid, post.
  - intros [w [Hw [pre [mid [post [-> Hs]]]]]].
    exists pre, mid, post. split; [reflexivity|].
    apply (lang_literals _ _ E). now exists w.
Qed.

(** X1: the AWS, console, TODO/FIXME and lint rules are substring tests: each
    fires exactly when one of its words occurs in the text, for the AWS and
    TODO/FIXME rules in any mix of upper and lower case, for the console
    and lint rules as written.  The optional colon of the TODO/FIXME
    pattern decides nothing. *)
Theorem literal_rules_are_substring_tests (k : Rule) (t : jsstring)
  (Hk : In k [Aws; Console; Todo; Lint]) :
  fires k t = true
  <-> exists w, In w (ruleLiterals k)
                /\ occursIn (ignoreCase (rulePattern k)) w t.
Proof.
  assert (Hplain : forall k', In k' [Aws; Console; Lint] ->
            literalsOf (source (rulePattern k')) = Some (ruleLiterals k')).
  { intros k' [<-|[<-|[<-|[]]]]; vm_compute; reflexivity. }
  cbn [In] in Hk. destruct Hk as [<-|[<-|[<-|[<-|[]]]]].
  - apply fires_literals, Hplain. cbn; tauto.
  - apply fires_literals, Hplain. cbn; tauto.
  - assert (E : literalsOf (source (rulePattern Todo))
                = Some (flat_map (fun w => [w; w ++ [58%N]]) (ruleLiterals Todo)))
      by (vm_compute; reflexivity).
    rewrite (fires_literals Todo t E). split.
    + intros [w' [Hw' Ho]]. apply in_flat_map in Hw'.
      destruct Hw' as [w [Hw [<-|[<-|[]]]]]; exists w;
        (split; [assumption|]); [assumption | now apply occursIn_prefix in Ho].
    + intros [w [Hw Ho]]. exists w. split; [|assumption].
      apply in_flat_map. exists w. split; [assumption | now left].
  - apply fires_literals, Hplain. cbn; tauto.
Qed.

Lemma occursIn_refl (ic : bool) (w : jsstring) : occursIn ic w w.
Proof.
  exists [], w, []. split; [now rewrite app_nil_r|].
  induction w; constructor; [reflexivity | assumption].
Qed.

Lemma literal_rules_are_substring_tests_witness :
  In Lint [Aws; Console; Todo; Lint]
  /\ (fires Lint (lit "@ts-ignore") = true
      <-> exists w, In w (ruleLiterals Lint)
                    /\ occursIn (ignoreCase (rulePattern Lint)) w (lit "@ts-ignore")).
Proof.
  assert (Hk : In Lint [Aws; Console; Todo; Lint]) by (cbn; tauto).
  split; [exact Hk|].
  exact (@literal_rules_are_substring_tests Lint (lit "@ts-ignore") Hk).
Defined.

Lemma letters_not_in (A : list (N * N)) :
  forallb (fun '(lo, hi) => ((hi <? 65) || (122 <? lo))%N) A = true ->
  forall c, isLetter c = true -> inRanges A c = false.
Proof.
  intros HA c Hc. destruct (inRanges A c) eqn:E; [|reflexivity].
  unfold inRanges in E. apply existsb_exists in E.
  destruct E as [[lo hi] [Hin Hr]].
  rewrite forallb_forall in HA. specialize (HA _ Hin). cbn in HA.
  apply andb_true_iff in Hr. destruct Hr as [H1 H2]. apply N.leb_le in H1, H2.
  unfold isLetter, isLower, isUpper in Hc.
  assert (Hb : (65 <= c <= 122)%N).
  { apply orb_true_iff in Hc. destruct Hc as [Hc|Hc];
      apply andb_true_iff in Hc; destruct Hc as [H3 H4];
      apply N.leb_le in H3, H4; lia. }
  apply orb_true_iff in HA. destruct HA as [HA|HA]; apply N.ltb_lt in HA; lia.
Qed.

Lemma classFound_whiteSpace (ic : bool) (ch : N) :
  classFound ic whiteSpace ch = isSpace ch.
Proof. apply classFound_no_letters, letters_not_in. reflexivity. Qed.

Lemma classFound_quote (ic : bool) (ch : N) :
  classFound ic [(39, 39); (34, 34)]%N ch = isQuote ch.
Proof.
  rewrite classFound_no_letters by (apply letters_not_in; reflexivity).
  unfold inRanges, isQuote. cbn [existsb]. rewrite orb_false_r.
  f_equal.
  - destruct (N.eqb_spec ch 39) as [->|Hn]; [reflexivity|].
    destruct (N.leb_spec 39 ch), (N.leb_spec ch 39); try reflexivity; lia.
  - destruct (N.eqb_spec ch 34) as [->|Hn]; [reflexivity|].
    destruct (N.leb_spec 34 ch), (N.leb_spec ch 34); try reflexivity; lia.
Qed.

Lemma Forall_iff_ext {A} (P Q : A -> Prop) (l : list A) :
  (forall a, P a <-> Q a) -> (Forall P l <-> Forall Q l).
Proof.
  intros H. split; intros HF; eapply Forall_impl; try exact HF;
    intros a; apply H.
Qed.

Lemma lang_spaces (ic : bool) (p : option N) (mid rest : list N) :
  lang ic (Star ws) p mid rest <-> Forall (fun ch => isSpace ch = true) mid.
Proof.
  unfold ws. rewrite lang_Star_Class. apply Forall_iff_ext. intros ch.
  now rewrite xorb_false_l, classFound_whiteSpace.
Qed.

Lemma lang_quote (ic : bool) (p : option N) (mid rest : list N) :
  lang ic quote p mid rest <-> exists q, mid = [q] /\ isQuote q = true.
Proof.
  unfold quote. rewrite lang_Class_iff. split; intros [q [-> H]]; exists q;
    (split; [reflexivity|]); now rewrite xorb_false_l, classFound_quote in *.
Qed.

Lemma lang_notQuotes (ic : bool) (p : option N) (mid rest : list N) :
  lang ic (Plus notQuote) p mid rest
  <-> mid <> [] /\ Forall (fun ch => isQuote ch = false) mid.
Proof.
  unfold notQuote. rewrite lang_Plus_Class.
  apply and_iff_compat_l, Forall_iff_ext. intros ch.
  rewrite xorb_true_l, classFound_quote. apply negb_true_iff.
Qed.

Lemma lang_sign (ic : bool) (a : N) (p : option N) (mid rest : list N) :
  isLetter a = false ->
  (lang ic (Char a) p mid rest <-> mid = [a]).
Proof.
  intros Ha. rewrite lang_Char_iff. split.
  - intros [ch [-> H]]. rewrite (canonicalize_not_letter ic a Ha) in H.
    now rewrite (canonicalize_to_not_letter ic ch Ha H).
  - intros ->. now exists a.
Qed.

(** The tail of the credential patterns. *)
Lemma lang_quotedAssignment (ic : bool) (p : option N) (mid rest : list N) :
  lang ic quotedAssignment p mid rest <-> quotedAssignmentShape mid.
Proof.
  unfold quotedAssignment, quotedAssignmentShape. split.
  - intros H.
    apply lang_Seq_iff in H. destruct H as [ws1 [m [-> [H1 H]]]].
    apply lang_spaces in H1.
    apply lang_Seq_iff in H. destruct H as [e [m' [-> [He H]]]].
    apply lang_sign in He; [|reflexivity]. subst e.
    apply lang_Seq_iff in H. destruct H as [ws2 [m [-> [H2 H]]]].
    apply lang_spaces in H2.
    apply lang_Seq_iff in H. destruct H as [q1 [m' [-> [Hq1 H]]]].
    apply lang_quote in Hq1. destruct Hq1 as [c1 [-> Hq1]].
    apply lang_Seq_iff in H. destruct H as [val [q2 [-> [Hv Hq2]]]].
    apply lang_notQuotes in Hv. destruct Hv as [Hne Hv].
    apply lang_quote in Hq2. destruct Hq2 as [c2 [-> Hq2]].
    exists ws1, ws2, c1, val, c2. repeat split; assumption.
  - intros [ws1 [ws2 [q1 [val [q2 [-> [H1 [H2 [Hq1 [Hq2 [Hne Hv]]]]]]]]]]].
    apply lang_Seq_iff. exists ws1, ([61%N] ++ ws2 ++ [q1] ++ val ++ [q2]).
    split; [reflexivity|]. split; [now apply lang_spaces|].
    apply lang_Seq_iff. exists [61%N], (ws2 ++ [q1] ++ val ++ [q2]).
    split; [reflexivity|]. split; [now apply lang_sign|].
    apply lang_Seq_iff. exists ws2, ([q1] ++ val ++ [q2]).
    split; [reflexivity|]. split; [now apply lang_spaces|].
    apply lang_Seq_iff. exists [q1], (val ++ [q2]).
    split; [reflexivity|]. split; [apply lang_quote; now exists q1|].
    apply lang_Seq_iff. exists val, [q2].
    split; [reflexivity|]. split; [now apply lang_notQuotes|].
    apply lang_quote. now exists q2.
Qed.

Lemma test_credential (names : pattern) (ws : list (list N)) (t : jsstring) :
  literalsOf names = Some ws ->
  (test (mkRegExp (Seq names quotedAssignment) true) t = true
   <-> exists pre name tail post,
         t = pre ++ name ++ tail ++ post
         /\ (exists w, In w ws /\ caseVariant name w)
         /\ quotedAssignmentShape tail).
Proof.
  intros E. rewrite test_lang. cbn [source ignoreCase]. split.
  - intros [pre [mid [post [-> H]]]].
    apply lang_Seq_iff in H. destruct H as [name [tail [-> [Hn Ht]]]].
    apply (lang_literals _ _ E) in Hn. apply lang_quotedAssignment in Ht.
    exists pre, name, tail, post. rewrite <- app_assoc. now repeat split.
  - intros [pre [name [tail [post [-> [Hn Ht]]]]]].
    exists pre, (name ++ tail), post. rewrite <- app_assoc.
    split; [reflexivity|]. apply lang_Seq_iff. exists name, tail.
    split; [reflexivity|]. split.
    + apply (lang_literals _ _ E). exact Hn.
    + now apply lang_quotedAssignment.
Qed.

(** X2: the three credential rules fire exactly when the text contains one of
    the rule's names, in any mix of upper and lower case, directly followed
    by optional white space, an equals sign, optional white space and a
    non-empty quoted value; the two quote characters need not be the same
    and the value may span lines. *)
Theorem credential_rules_shape (k : Rule) (t : jsstring)
  (Hk : In k [Password; ApiKey; Secret]) :
  fires k t = true
  <-> exists pre name tail post,
        t = pre ++ name ++ tail ++ post
        /\ (exists w, In w (credentialNames k) /\ caseVariant name w)
        /\ quotedAssignmentShape tail.
Proof.
  cbn [In] in Hk. destruct Hk as [<-|[<-|[<-|[]]]]; unfold fires;
    cbn [rulePattern].
  - apply test_credential. vm_compute. reflexivity.
  - unfold apiKeyPattern.
    rewrite (@test_credential _
               [lit "apikey"; lit "api_key"; lit "api-key"; lit "apikey"])
      by (vm_compute; reflexivity).
    split; intros [pre [name [tail [post [E [[w [Hw Hn]] Ht]]]]]];
      exists pre, name, tail, post; (split; [exact E|]);
      (split; [|exact Ht]); exists w; (split; [|exact Hn]);
      cbn [In credentialNames] in *; tauto.
  - apply test_credential. vm_compute. reflexivity.
Qed.

Lemma credential_rules_shape_witness :
  In ApiKey [Password; ApiKey; Secret]
  /\ (fires ApiKey (lit "const Api-Key = 'sk_live_12345';") = true
      <-> exists pre name tail post,
            lit "const Api-Key = 'sk_live_12345';" = pre ++ name ++ tail ++ post
            /\ (exists w, In w (credentialNames ApiKey) /\ caseVariant name w)
            /\ quotedAssignmentShape tail).
Proof.
  assert (Hk : In ApiKey [Password; ApiKey; Secret]) by (cbn; tauto).
  split; [exact Hk|].
  exact (@credential_rules_shape ApiKey
           (lit "const Api-Key = 'sk_live_12345';") Hk).
Defined.

(** What the eval pattern matches: [eval] as written, optional white
    space and an opening parenthesis, at a position not preceded by a
    letter, digit or underscore. *)
Lemma lang_evalPattern (p : option N) (mid rest : list N) :
  lang false (source evalPattern) p mid rest
  <-> (exists sp,
         mid = lit "eval" ++ sp ++ [40%N]
         /\ Forall (fun ch => isSpace ch = true) sp)
      /\ isWordChar p = false.
Proof.
  cbn [evalPattern source].
  assert (El : literalsOf (str "eval") = Some [lit "eval"])
    by (vm_compute; reflexivity).
  split.
  - intros H.
    apply lang_Seq_iff in H. destruct H as [b [m [-> [Hb H]]]].
    apply lang_WordBoundary_iff in Hb. destruct Hb as [-> Hb].
    cbn [app] in *. unfold lastBefore in H. cbn [map last] in H.
    apply lang_Seq_iff in H. destruct H as [e [m' [-> [He H]]]].
    apply (lang_literals _ _ El) in He.
    destruct He as [w [[<-|[]] He]]. apply sameUnder_false in He. subst e.
    apply lang_Seq_iff in H. destruct H as [sp [par [-> [Hs Hp]]]].
    apply lang_spaces in Hs. apply lang_sign in Hp; [|reflexivity]. subst par.
    split; [exists sp; now split|].
    change (lit "eval") with [101; 118; 97; 108]%N in Hb.
    cbn [app hd_error] in Hb. change (isWordChar (Some 101%N)) with true in Hb.
    now destruct (isWordChar p).
  - intros [[sp [-> Hs]] Hb].
    apply lang_Seq_iff. exists [], (lit "eval" ++ sp ++ [40%N]).
    split; [reflexivity|]. split.
    + apply lang_WordBoundary_iff. split; [reflexivity|]. rewrite Hb.
      reflexivity.
    + apply lang_Seq_iff. exists (lit "eval"), (sp ++ [40%N]).
      split; [reflexivity|]. split.
      * apply (lang_literals _ _ El). exists (lit "eval").
        split; [now left | now apply sameUnder_false].
      * apply lang_Seq_iff. exists sp, [40%N]. split; [reflexivity|].
        split; [now apply lang_spaces | now apply lang_sign].
Qed.

(** X3: the eval rule fires exactly when the text contains [eval], as
    written, not preceded by a letter, digit or underscore, and followed by
    optional white space and an opening parenthesis. *)
Theorem eval_rule_shape (t : jsstring) :
  fires Eval t = true
  <-> exists pre sp post,
        t = pre ++ lit "eval" ++ sp ++ [40%N] ++ post
        /\ Forall (fun ch => isSpace ch = true) sp
        /\ isWordChar (lastBefore None pre) = false.
Proof.
  unfold fires. rewrite test_lang. cbn [rulePattern ignoreCase]. split.
  - intros [pre [mid [post [-> H]]]].
    apply lang_evalPattern in H. destruct H as [[sp [-> Hs]] Hb].
    exists pre, sp, post. rewrite <- !app_assoc. now repeat split.
  - intros [pre [sp [post [-> [Hs Hb]]]]].
    exists pre, (lit "eval" ++ sp ++ [40%N]), post.
    split; [now rewrite <- !app_assoc|].
    apply lang_evalPattern. split; [exists sp; now split | assumption].
Qed.

(** X4: text around a diff text never hides a violation of the first seven
    rules; for the eval rule text after it never does, while text before it
    can (the word boundary). *)
Theorem context_never_hides (k : Rule) (filename a t b : jsstring)
  (Hr : reports k filename t) (Hk : k = Eval -> a = []) :
  reports k filename (a ++ t ++ b).
Proof.
  rewrite reports_iff_fires in *.
  destruct (boundaryFree (source (rulePattern k))) eqn:Hb.
  - unfold fires in *. rewrite test_lang in *.
    destruct Hr as [pre [mid [post [-> H]]]].
    exists (a ++ pre), mid, (post ++ b). split; [now rewrite <- !app_assoc|].
    now apply (lang_boundaryFree H Hb).
  - assert (k = Eval) by (destruct k; try discriminate Hb; reflexivity).
    subst k. rewrite Hk by reflexivity. cbn [app].
    unfold fires in *. rewrite test_lang in *.
    destruct Hr as [pre [mid [post [-> H]]]].
    exists pre, mid, (post ++ b). split; [now rewrite <- !app_assoc|].
    cbn [rulePattern ignoreCase] in *.
    apply lang_evalPattern. now apply lang_evalPattern in H.
Qed.

Lemma context_never_hides_witness :
  reports Todo (lit "a.js") (lit "fixme")
  /\ (Todo = Eval -> lit "// " = [])
  /\ reports Todo (lit "a.js") (lit "// " ++ lit "fixme" ++ lit ": later").
Proof.
  assert (Hr : reports Todo (lit "a.js") (lit "fixme"))
    by (apply reports_iff_fires; vm_compute; reflexivity).
  assert (Hk : Todo = Eval -> lit "// " = []) by discriminate.
  split; [exact Hr|]. split; [exact Hk|].
  exact (@context_never_hides Todo (lit "a.js") (lit "// ") (lit "fixme")
           (lit ": later") Hr Hk).
Defined.

Example eval_hidden_by_prefix :
  fires Eval (lit "eval(x)") = true
  /\ fires Eval (lit "medi" ++ lit "eval(x)") = false.
Proof. vm_compute. split; reflexivity. Qed.

Lemma occursIn_exact (w t : jsstring) :
  occursIn false w t <-> exists pre post, t = pre ++ w ++ post.
Proof.
  split.
  - intros [pre [mid [post [-> H]]]]. apply sameUnder_false in H. subst mid.
    now exists pre, post.
  - intros [pre [post ->]]. exists pre, w, post.
    split; [reflexivity | now apply sameUnder_false].
Qed.

(** C5, as the code has it.  The credential rules and the TODO/FIXME rule,
    whose patterns carry the [i] flag, are reported on a text exactly when
    they are reported on any text that differs from it only in the case of
    Basic Latin letters.  The console, lint and eval rules, whose patterns
    do not carry it, match only the spelling written in the pattern: the
    console and lint rules are reported exactly when the text contains one
    of their words as written, the eval rule exactly when it contains
    [eval] as written, not preceded by a letter, digit or underscore and
    followed by optional white space and an opening parenthesis; and each
    of the three is reported on some text and not on a case variant of
    it. *)
Theorem rules_case_sensitivity :
  (forall k filename t t',
      In k caseInsensitiveRules -> caseVariant t t' ->
      (reports k filename t <-> reports k filename t'))
  /\ (forall k filename t,
        In k [Console; Lint] ->
        (reports k filename t
         <-> exists w pre post, In w (ruleLiterals k) /\ t = pre ++ w ++ post))
  /\ (forall filename t,
        reports Eval filename t
        <-> exists pre sp post,
              t = pre ++ lit "eval" ++ sp ++ [40%N] ++ post
              /\ Forall (fun ch => isSpace ch = true) sp
              /\ isWordChar (lastBefore None pre) = false)
  /\ (forall k filename,
        In k [Console; Lint; Eval] ->
        exists t t',
          caseVariant t t' /\ reports k filename t /\ ~ reports k filename t').
Proof.
  split; [|split; [|split]].
  - intros k filename t t' Hk Ht. now apply flagged_rules_ignore_case.
  - intros k filename t Hk. rewrite reports_iff_fires.
    assert (E : literalsOf (source (rulePattern k)) = Some (ruleLiterals k)
                /\ ignoreCase (rulePattern k) = false).
    { cbn [In] in Hk. destruct Hk as [<-|[<-|[]]]; vm_compute; split; reflexivity. }
    destruct E as [E Hi]. rewrite (fires_literals k t E), Hi. split.
    + intros [w [Hw Ho]]. apply occursIn_exact in Ho.
      destruct Ho as [pre [post ->]]. now exists w, pre, post.
    + intros [w [pre [post [Hw ->]]]]. exists w. split; [assumption|].
      apply occursIn_exact. now exists pre, post.
  - intros filename t. rewrite reports_iff_fires. unfold fires.
    rewrite test_lang. cbn [rulePattern ignoreCase]. split.
    + intros [pre [mid [post [-> H]]]].
      apply lang_evalPattern in H. destruct H as [[sp [-> Hs]] Hb].
      exists pre, sp, post. rewrite <- !app_assoc. now repeat split.
    + intros [pre [sp [post [-> [Hs Hb]]]]].
      exists pre, (lit "eval" ++ sp ++ [40%N]), post.
      split; [now rewrite <- !app_assoc|].
      apply lang_evalPattern. split; [exists sp; now split | assumption].
  - intros k filename Hk.
    assert (H : exists t, fires k t = true /\ fires k (toUpperCase t) = false).
    { cbn [In] in Hk. destruct Hk as [<-|[<-|[<-|[]]]].
      - exists (lit "console.log(1)"). vm_compute. now split.
      - exists (lit "// eslint-disable"). vm_compute. now split.
      - exists (lit "eval(x)"). vm_compute. now split. }
    destruct H as [t [H1 H2]]. exists t, (toUpperCase t).
    split; [apply caseVariant_toUpperCase|].
    rewrite !reports_iff_fires. split; [assumption|]. now rewrite H2.
Qed.

Lemma rules_case_sensitivity_witness :
  (In Secret caseInsensitiveRules
   /\ caseVariant (lit "token = 'abc'") (lit "TOKEN = 'ABC'")
   /\ (reports Secret (lit "a.js") (lit "token = 'abc'")
       <-> reports Secret (lit "a.js") (lit "TOKEN = 'ABC'")))
  /\ (In Lint [Console; Lint]
      /\ (reports Lint (lit "a.js") (lit "// @ts-ignore")
          <-> exists w pre post,
                In w (ruleLiterals Lint) /\ lit "// @ts-ignore" = pre ++ w ++ post))
  /\ (In Eval [Console; Lint; Eval]
      /\ exists t t',
           caseVariant t t'
           /\ reports Eval (lit "a.js") t /\ ~ reports Eval (lit "a.js") t').
Proof.
  assert (Hk : In Secret caseInsensitiveRules) by (cbn; tauto).
  assert (Ht : caseVariant (lit "token = 'abc'") (lit "TOKEN = 'ABC'"))
    by apply (caseVariant_toUpperCase (lit "token = 'abc'")).
  assert (Hl : In Lint [Console; Lint]) by (cbn; tauto).
  assert (He : In Eval [Console; Lint; Eval]) by (cbn; tauto).
  split; [|split].
  - split; [exact Hk|]. split; [exact Ht|].
    exact (proj1 rules_case_sensitivity Secret (lit "a.js") _ _ Hk Ht).
  - split; [exact Hl|].
    exact (proj1 (proj2 rules_case_sensitivity) Lint (lit "a.js")
             (lit "// @ts-ignore") Hl).
  - split; [exact He|].
    exact (proj2 (proj2 (proj2 rules_case_sensitivity)) Eval (lit "a.js") He).
Defined.

(** ** What a push collects *)

Lemma analyze_nil_iff (filename text : jsstring) :
  analyzeFileForCompliance filename text = []
  <-> forall k, fires k text = false.
Proof.
  rewrite analyze_catalog. split.
  - intros H k. apply map_eq_nil in H.
    destruct (fires k text) eqn:E; [|reflexivity].
    assert (Hin : In k (filter (fun k => fires k text) catalog)).
    { apply filter_In. split; [destruct k; cbn; tauto | exact E]. }
    rewrite H in Hin. contradiction.
  - intros H. replace (filter (fun k => fires k text) catalog) with (@nil Rule);
      [reflexivity|].
    symmetry. unfold catalog. cbn [filter]. now rewrite !H.
Qed.

Lemma analyze_empty_patch (filename : jsstring) :
  analyzeFileForCompliance filename [] = [].
Proof. apply analyze_nil_iff. intros k. destruct k; vm_compute; reflexivity. Qed.

Lemma analyzeFiles_flat_map (files : list ChangedFile) :
  forall acc, analyzeFiles files acc = acc ++ flat_map fileViolations files.
Proof.
  unfold analyzeFiles.
  induction files as [|f files IH]; intros acc; cbn [fold_left flat_map].
  - now rewrite app_nil_r.
  - rewrite IH. unfold fileViolations at 2.
    destruct (patch f) as [text|]; [|reflexivity].
    destruct text as [|ch text]; cbn [nonEmpty].
    + now rewrite analyze_empty_patch.
    + now rewrite app_assoc.
Qed.

Lemma fold_analyzeCommit (octokit : Octokit) (payload : PushPayload)
  (cs : list Commit) :
  forall log vs,
    fold_left (analyzeCommit octokit payload) cs (log, vs)
    = (log ++ flat_map (commitErrors octokit payload) cs,
       vs ++ flat_map (commitViolations octokit payload) cs).
Proof.
  induction cs as [|c cs IH]; intros log vs; cbn [fold_left flat_map].
  - now rewrite !app_nil_r.
  - assert (E : analyzeCommit octokit payload (log, vs) c
                = (log ++ commitErrors octokit payload c,
                   vs ++ commitViolations octokit payload c)).
    { unfold analyzeCommit, commitErrors, commitViolations, push.
      destruct (reposGetCommit octokit _ _ _) as [reason|[files|]];
        rewrite ?analyzeFiles_flat_map, ?app_nil_r; reflexivity. }
    now rewrite E, IH, <- !app_assoc.
Qed.

(** X5: the violations a push collects are those of its commits in push
    order, within a commit those of its changed files in response order,
    within a file those of the rules in catalog order.  A commit whose
    retrieval is rejected, a response without files and a file without a
    patch or with an empty one contribute nothing and stop nothing. *)
Theorem collected_by_commit_and_file (octokit : Octokit) (payload : PushPayload) :
  collected octokit payload
  = flat_map (commitViolations octokit payload) (commits payload).
Proof. unfold collected. now rewrite fold_analyzeCommit. Qed.

Lemma generate_passed_iff_empty_aux (vs : list ComplianceViolation) :
  (passed (generateComplianceReport vs) = true <-> vs = [])
  /\ violations (generateComplianceReport vs) = vs.
Proof.
  unfold generateComplianceReport. cbn [passed violations].
  split; [|reflexivity]. destruct vs; split; try reflexivity; discriminate.
Qed.

(** X6: the report of a push is passed exactly when no rule fires on the
    patch of any changed file of any commit whose retrieval succeeds. *)
Theorem passed_iff_nothing_fires (octokit : Octokit) (payload : PushPayload) :
  passed (pushReport octokit payload) = true
  <-> forall c files f text k,
        In c (commits payload) ->
        reposGetCommit octokit (repositoryOwner payload)
          (repositoryName payload) (id c)
        = Resolved (Some files) ->
        In f files ->
        patch f = Some text ->
        fires k text = false.
Proof.
  unfold pushReport.
  rewrite (proj1 (generate_passed_iff_empty_aux (collected octokit payload))).
  unfold collected. rewrite fold_analyzeCommit. cbn [snd app]. split.
  - intros H c files f text k Hc Ho Hf Hp.
    assert (Hcv : commitViolations octokit payload c = []).
    { destruct (commitViolations octokit payload c) as [|v vs] eqn:E;
        [reflexivity|].
      assert (Hin : In v (flat_map (commitViolations octokit payload)
                            (commits payload))).
      { apply in_flat_map. exists c. split; [assumption|]. rewrite E. now left. }
      rewrite H in Hin. contradiction. }
    unfold commitViolations in Hcv. rewrite Ho in Hcv.
    assert (Hfv : fileViolations f = []).
    { destruct (fileViolations f) as [|v vs] eqn:E; [reflexivity|].
      assert (Hin : In v (flat_map fileViolations files)).
      { apply in_flat_map. exists f. split; [assumption|]. rewrite E. now left. }
      rewrite Hcv in Hin. contradiction. }
    unfold fileViolations in Hfv. rewrite Hp in Hfv.
    now apply (proj1 (analyze_nil_iff (filename f) text)).
  - intros H.
    destruct (flat_map _ _) as [|v vs] eqn:E; [reflexivity|]. exfalso.
    assert (Hin : In v (flat_map (commitViolations octokit payload)
                          (commits payload))) by (rewrite E; now left).
    apply in_flat_map in Hin. destruct Hin as [c [Hc Hv]].
    unfold commitViolations in Hv.
    destruct (reposGetCommit octokit _ _ _) as [reason|[files|]] eqn:Ho; try contradiction.
    apply in_flat_map in Hv. destruct Hv as [f [Hf Hv]].
    unfold fileViolations in Hv.
    destruct (patch f) as [text|] eqn:Hp; [|contradiction].
    assert (Hnil : analyzeFileForCompliance (filename f) text = []).
    { apply analyze_nil_iff. intros k. exact (H c files f text k Hc Ho Hf Hp). }
    rewrite Hnil in Hv. contradiction.
Qed.

(** ** Outcomes of the handler *)

Lemma startsWith_prefix (pat b : jsstring) : startsWith pat (pat ++ b) = Some b.
Proof.
  induction pat as [|ch pat IH]; cbn [app startsWith]; [now destruct b|].
  now rewrite N.eqb_refl.
Qed.

Lemma removeFirst_prefix (pat b : jsstring) : removeFirst pat (pat ++ b) = b.
Proof.
  destruct (pat ++ b) as [|ch s] eqn:E; cbn [removeFirst];
    rewrite <- E, startsWith_prefix; reflexivity.
Qed.

(** X7: a push whose ref is [refs/heads/] followed by a branch name is
    skipped exactly when the name is neither [main] nor [master]; the name
    is compared whole. *)
Theorem branch_filter (octokit : Octokit) (payload : PushPayload)
  (b : jsstring) (Href : ref payload = lit "refs/heads/" ++ b) :
  snd (onPush octokit payload) = Skipped
  <-> b <> lit "main" /\ b <> lit "master".
Proof.
  rewrite onPush_closed_form. unfold analysedBranch.
  rewrite Href, removeFirst_prefix. cbv zeta.
  rewrite <- !eqb_neq.
  destruct (JsString.eqb b (lit "main")), (JsString.eqb b (lit "master"));
    cbn [orb]; try (split; [|now intros [? ?]]);
    try (destruct (rev (commits payload)); [discriminate|];
         destruct (formatComplianceReport _ _ _ _); [|discriminate];
         destruct (issuesCreate octokit _); discriminate).
  split; [now split | reflexivity].
Qed.

Lemma branch_filter_witness :
  ref samplePush = lit "refs/heads/" ++ lit "main"
  /\ (snd (onPush sampleOctokit samplePush) = Skipped
      <-> lit "main" <> lit "main" /\ lit "main" <> lit "master").
Proof.
  assert (Href : ref samplePush = lit "refs/heads/" ++ lit "main")
    by (vm_compute; reflexivity).
  split; [exact Href|].
  exact (@branch_filter sampleOctokit samplePush (lit "main") Href).
Defined.

(** The filter removes the first [refs/heads/] wherever it stands. *)
Example branch_filter_odd_refs :
  analysedBranch
    (mkPushPayload (lit "refs/heads/main-backup") [] None [] [] []) = false
  /\ analysedBranch (mkPushPayload (lit "refs/tags/main") [] None [] [] []) = false
  /\ analysedBranch (mkPushPayload (lit "main") [] None [] [] []) = true
  /\ analysedBranch
       (mkPushPayload (lit "marefs/heads/ster") [] None [] [] []) = true.
Proof. vm_compute. repeat split. Qed.

Lemma plainPaths_false_iff (vs : list ComplianceViolation) :
  plainPaths vs = false
  <-> exists v, In v vs /\ isInherited (file v) = true.
Proof.
  unfold plainPaths. split.
  - induction vs as [|v vs IH]; [discriminate|]. cbn [forallb].
    destruct (isInherited (file v)) eqn:E; cbn [negb andb].
    + intros _. exists v. split; [now left | assumption].
    + intros H. destruct (IH H) as [u [Hu Hi]]. exists u.
      split; [now right | assumption].
  - intros [v [Hin Hi]]. destruct (forallb _ vs) eqn:E; [|reflexivity].
    rewrite forallb_forall in E. specialize (E v Hin). rewrite Hi in E.
    discriminate.
Qed.

(** X8: the renderer throws, and then a TypeError, exactly for a report that
    is not passed and has a violation on a path naming a property that
    objects inherit. *)
Theorem format_throws_iff (report : ComplianceReport)
  (commitSha commitMessage author : jsstring) (e : exn) :
  formatComplianceReport report commitSha commitMessage author = Throw e
  <-> passed report = false
      /\ exists v, In v (violations report) /\ isInherited (file v) = true.
Proof.
  rewrite format_closed_form, <- plainPaths_false_iff.
  destruct (passed report); [split; [discriminate | now intros [? _]]|].
  destruct (plainPaths (violations report));
    [split; [discriminate | now intros [_ ?]]|].
  destruct e. split; [now split | reflexivity].
Qed.

(** X9: how a handler run ends.  It is skipped exactly on a branch that is
    not analysed.  An exception of the handler's own code escapes it, always
    a TypeError, exactly on an analysed branch when the push has no commits
    or a collected violation is on a path naming an inherited property.
    Otherwise the handler asks the API for the issue, and the run ends with
    the issue created when the API resolves that request and with the
    API's rejection escaping the handler when it rejects it. *)
Theorem onPush_outcome (octokit : Octokit) (payload : PushPayload) :
  match snd (onPush octokit payload) with
  | Skipped => analysedBranch payload = false
  | Failed e =>
      e = TypeError
      /\ analysedBranch payload = true
      /\ (commits payload = []
          \/ plainPaths (collected octokit payload) = false)
  | Refused request error =>
      analysedBranch payload = true
      /\ commits payload <> []
      /\ plainPaths (collected octokit payload) = true
      /\ issuesCreate octokit request = IssueRejected error
  | Created request =>
      analysedBranch payload = true
      /\ commits payload <> []
      /\ plainPaths (collected octokit payload) = true
      /\ issuesCreate octokit request = IssueResolved
  end.
Proof.
  rewrite onPush_closed_form.
  destruct (analysedBranch payload); [|reflexivity].
  destruct (rev (commits payload)) as [|c cs] eqn:Hrev.
  - repeat split. left.
    rewrite <- (rev_involutive (commits payload)), Hrev. reflexivity.
  - assert (Hne : commits payload <> []).
    { intros E. rewrite E in Hrev. discriminate. }
    rewrite format_closed_form.
    change (violations (pushReport octokit payload))
      with (collected octokit payload).
    assert (Hplain : passed (pushReport octokit payload) = true ->
                     plainPaths (collected octokit payload) = true).
    { intros Hp. apply (proj1 (generate_passed_iff_empty_aux _)) in Hp.
      now rewrite Hp. }
    destruct (passed (pushReport octokit payload)) eqn:Hp.
    + destruct (issuesCreate octokit _) eqn:Hi; repeat split;
        try assumption; now apply Hplain.
    + destruct (plainPaths (collected octokit payload));
        [|repeat split; now right].
      destruct (issuesCreate octokit _) eqn:Hi; repeat split; assumption.
Qed.

Lemma analyzeCommit_ext (o1 o2 : Octokit) (payload : PushPayload)
  (cs : list Commit) :
  (forall c, In c cs ->
     reposGetCommit o1 (repositoryOwner payload) (repositoryName payload) (id c)
     = reposGetCommit o2 (repositoryOwner payload) (repositoryName payload)
         (id c)) ->
  forall st,
    fold_left (analyzeCommit o1 payload) cs st
    = fold_left (analyzeCommit o2 payload) cs st.
Proof.
  induction cs as [|c cs IH]; intros H st; [reflexivity|]. cbn [fold_left].
  rewrite IH by (intros c' Hc'; apply H; now right).
  f_equal. unfold analyzeCommit. destruct st as [log vs].
  now rewrite (H c (or_introl eq_refl)).
Qed.

(** X10: the handler consults the remote API only about the repository of
    the push: [repos.getCommit] for the ids of the push's commits there and
    [issues.create] for a request there.  Two APIs that answer alike on
    those calls lead to the same log and the same outcome, whatever they
    answer elsewhere. *)
Theorem onPush_octokit_locality (o1 o2 : Octokit) (payload : PushPayload)
  (Hg : forall c, In c (commits payload) ->
          reposGetCommit o1 (repositoryOwner payload) (repositoryName payload)
            (id c)
          = reposGetCommit o2 (repositoryOwner payload) (repositoryName payload)
              (id c))
  (Hi : forall request,
          issueOwner request = repositoryOwner payload ->
          issueRepo request = repositoryName payload ->
          issuesCreate o1 request = issuesCreate o2 request) :
  onPush o1 payload = onPush o2 payload.
Proof.
  unfold onPush. rewrite (analyzeCommit_ext o1 o2 payload _ Hg). cbv zeta.
  destruct (negb _ && negb _); [reflexivity|].
  destruct (fold_left _ _ _) as [log vs].
  destruct (arrayGet _ _) as [c|]; [|reflexivity].
  destruct (formatComplianceReport _ _ _ _) as [doc|]; [|reflexivity].
  now rewrite Hi.
Qed.

Lemma onPush_octokit_locality_witness :
  reposGetCommit sampleOctokit [] [] [] <> reposGetCommit repositoryOctokit [] [] []
  /\ issuesCreate sampleOctokit noRequest <> issuesCreate repositoryOctokit noRequest
  /\ (forall c, In c (commits samplePush) ->
        reposGetCommit sampleOctokit (repositoryOwner samplePush)
          (repositoryName samplePush) (id c)
        = reposGetCommit repositoryOctokit (repositoryOwner samplePush)
            (repositoryName samplePush) (id c))
  /\ (forall request,
        issueOwner request = repositoryOwner samplePush ->
        issueRepo request = repositoryName samplePush ->
        issuesCreate sampleOctokit request = issuesCreate repositoryOctokit request)
  /\ onPush sampleOctokit samplePush = onPush repositoryOctokit samplePush.
Proof.
  assert (Hg : forall c, In c (commits samplePush) ->
             reposGetCommit sampleOctokit (repositoryOwner samplePush)
               (repositoryName samplePush) (id c)
             = reposGetCommit repositoryOctokit (repositoryOwner samplePush)
                 (repositoryName samplePush) (id c)).
  { intros c Hc. unfold repositoryOctokit. cbn [reposGetCommit].
    replace (JsString.eqb (repositoryName samplePush) (lit "testing-things"))
      with true by (vm_compute; reflexivity).
    reflexivity. }
  assert (Hi : forall request,
             issueOwner request = repositoryOwner samplePush ->
             issueRepo request = repositoryName samplePush ->
             issuesCreate sampleOctokit request
             = issuesCreate repositoryOctokit request).
  { intros request _ Hrepo. unfold repositoryOctokit. cbn [issuesCreate].
    rewrite Hrepo.
    replace (JsString.eqb (repositoryName samplePush) (lit "testing-things"))
      with true by (vm_compute; reflexivity).
    reflexivity. }
  split; [vm_compute; discriminate|]. split; [vm_compute; discriminate|].
  split; [exact Hg|]. split; [exact Hi|].
  exact (@onPush_octokit_locality sampleOctokit repositoryOctokit samplePush Hg Hi).
Defined.

(** The log of the handler in closed form. *)
Lemma onPush_log_closed_form (octokit : Octokit) (payload : PushPayload) :
  analysedBranch payload = true ->
  fst (onPush octokit payload)
  = runningEntry payload
    :: flat_map (commitErrors octokit payload) (commits payload)
    ++ match rev (commits payload) with
       | [] => []
       | latestCommit :: _ =>
           match formatComplianceReport (pushReport octokit payload)
                   (id latestCommit) (message latestCommit)
                   (authorName latestCommit) with
           | Throw _ => []
           | Ok reportBody =>
               match issuesCreate octokit
                       (requestFor octokit payload latestCommit reportBody) with
               | IssueRejected _ => []
               | IssueResolved => [postedEntry (pushReport octokit payload)]
               end
           end
       end.
Proof.
  intros Hb. unfold analysedBranch in Hb. cbv zeta in Hb.
  unfold onPush, requestFor, pushReport, collected, runningEntry, postedEntry.
  cbv zeta. rewrite !fold_analyzeCommit. cbn [snd app].
  replace (negb (JsString.eqb (removeFirst (lit "refs/heads/") (ref payload))
                   (lit "main"))
           && negb (JsString.eqb (removeFirst (lit "refs/heads/") (ref payload))
                      (lit "master")))
    with false
    by (destruct (JsString.eqb _ (lit "main")), (JsString.eqb _ (lit "master"));
        try reflexivity; discriminate Hb).
  rewrite arrayGet_last.
  destruct (rev (commits payload)) as [|c cs]; cbn [fst];
    [now rewrite app_nil_r|].
  destruct (formatComplianceReport _ _ _ _); cbn [fst];
    [|now rewrite app_nil_r].
  destruct (passed (generateComplianceReport _)); cbv iota;
    destruct (issuesCreate octokit _); cbn [fst];
    rewrite ?app_nil_r; reflexivity.
Qed.

(** X11: the log of a run on an analysed branch: the entry that the check
    runs, one error entry for each commit whose retrieval is rejected, in
    push order, and the entry that the report is posted exactly when the
    issue is created, that is when the API has resolved the request. *)
Theorem onPush_log (octokit : Octokit) (payload : PushPayload)
  (Hb : analysedBranch payload = true) :
  fst (onPush octokit payload)
  = runningEntry payload
    :: flat_map (commitErrors octokit payload) (commits payload)
    ++ match snd (onPush octokit payload) with
       | Created _ => [postedEntry (pushReport octokit payload)]
       | Skipped | Failed _ | Refused _ _ => []
       end.
Proof.
  rewrite (onPush_log_closed_form octokit payload Hb), onPush_closed_form, Hb.
  destruct (rev (commits payload)) as [|c cs]; [reflexivity|].
  destruct (formatComplianceReport _ _ _ _); [|reflexivity].
  destruct (issuesCreate octokit _); reflexivity.
Qed.

Lemma onPush_log_witness :
  analysedBranch samplePush = true
  /\ fst (onPush halfRejectingOctokit samplePush)
     = runningEntry samplePush
       :: flat_map (commitErrors halfRejectingOctokit samplePush)
            (commits samplePush)
       ++ match snd (onPush halfRejectingOctokit samplePush) with
          | Created _ => [postedEntry (pushReport halfRejectingOctokit samplePush)]
          | Skipped | Failed _ | Refused _ _ => []
          end.
Proof.
  assert (Hb : analysedBranch samplePush = true) by (vm_compute; reflexivity).
  split; [exact Hb|].
  exact (@onPush_log halfRejectingOctokit samplePush Hb).
Defined.

(** With the first retrieval and the request rejected, the log has the
    running entry and one error entry, and no posted entry; with the
    request resolved it ends with the posted entry. *)
Example log_of_rejections :
  fst (onPush halfRejectingOctokit samplePush)
  = [runningEntry samplePush;
     LogError (lit "Error analyzing commit 1111111aaaaaaaaa: Not Found")]
  /\ fst (onPush unreachableOctokit samplePush)
     = [runningEntry samplePush;
        LogError (lit "Error analyzing commit 1111111aaaaaaaaa: Not Found");
        LogError (lit "Error analyzing commit 2222222bbbbbbbbb: Not Found");
        LogInfo (lit "Compliance report posted: PASSED")].
Proof. vm_compute. split; reflexivity. Qed.

(** X12: retrieval failures are not reported as such.  On an analysed
    branch, for a push all of whose retrievals are rejected the handler
    asks for an issue titled as passed, labelled [passed], with the body of
    the empty report; the run ends with that issue created when the API
    resolves the request, and with the API's rejection when it does not. *)
Theorem rejected_commits_pass (octokit : Octokit) (payload : PushPayload)
  (earlier : list Commit) (latest : Commit)
  (Hb : analysedBranch payload = true)
  (Hc : commits payload = earlier ++ [latest])
  (Hr : forall c, In c (commits payload) ->
          exists reason,
            reposGetCommit octokit (repositoryOwner payload)
              (repositoryName payload) (id c)
            = Rejected reason) :
  let request :=
    mkIssueRequest (repositoryOwner payload) (repositoryName payload)
      (lit "✅ Compliance Check Passed - " ++ substring0 7 (id latest))
      (preamble (generateComplianceReport []) (id latest) (message latest)
         (authorName latest))
      [lit "compliance"; lit "passed"] in
  snd (onPush octokit payload)
  = match issuesCreate octokit request with
    | IssueRejected error => Refused request error
    | IssueResolved => Created request
    end.
Proof.
  assert (E : collected octokit payload = []).
  { unfold collected. rewrite fold_analyzeCommit. cbn [snd app]. clear Hc.
    revert Hr. generalize (commits payload) as cs.
    induction cs as [|c cs IH]; intros Hr; [reflexivity|].
    cbn [flat_map]. rewrite IH by (intros c' Hc'; apply Hr; now right).
    unfold commitViolations. destruct (Hr c (or_introl eq_refl)) as [reason ->].
    reflexivity. }
  intros request.
  rewrite onPush_closed_form, Hb, Hc, rev_app_distr. cbn [rev app].
  rewrite format_closed_form. unfold requestFor, pushReport. rewrite E.
  reflexivity.
Qed.

Lemma rejected_commits_pass_witness :
  analysedBranch samplePush = true
  /\ commits samplePush
     = [mkCommit (lit "1111111aaaaaaaaa") (lit "Add new feature") (lit "Ann")]
       ++ [mkCommit (lit "2222222bbbbbbbbb") (lit "Fix the docs") (lit "Bob")]
  /\ (forall c, In c (commits samplePush) ->
        exists reason,
          reposGetCommit unreachableOctokit (repositoryOwner samplePush)
            (repositoryName samplePush) (id c)
          = Rejected reason)
  /\ snd (onPush unreachableOctokit samplePush)
     = Created
         (mkIssueRequest (repositoryOwner samplePush) (repositoryName samplePush)
            (lit "✅ Compliance Check Passed - "
             ++ substring0 7 (lit "2222222bbbbbbbbb"))
            (preamble (generateComplianceReport []) (lit "2222222bbbbbbbbb")
               (lit "Fix the docs") (lit "Bob"))
            [lit "compliance"; lit "passed"]).
Proof.
  assert (Hb : analysedBranch samplePush = true) by (vm_compute; reflexivity).
  assert (Hc : commits samplePush
               = [mkCommit (lit "1111111aaaaaaaaa") (lit "Add new feature")
                    (lit "Ann")]
                 ++ [mkCommit (lit "2222222bbbbbbbbb") (lit "Fix the docs")
                       (lit "Bob")])
    by reflexivity.
  assert (Hr : forall c, In c (commits samplePush) ->
             exists reason,
               reposGetCommit unreachableOctokit (repositoryOwner samplePush)
                 (repositoryName samplePush) (id c)
               = Rejected reason)
    by (intros c _; exists (lit "Not Found"); reflexivity).
  split; [exact Hb|]. split; [exact Hc|]. split; [exact Hr|].
  exact (@rejected_commits_pass unreachableOctokit samplePush _ _ Hb Hc Hr).
Defined.

(** ** The order of the rendered subsections *)

Section EntriesOrder.

Context {V : Type}.

Let byIndex (e e' : jsstring * V) : Prop :=
  (digitsValue (fst e) <= digitsValue (fst e'))%N.

Lemma insertByIndex_perm (e : jsstring * V) (l : list (jsstring * V)) :
  Permutation (insertByIndex e l) (e :: l).
Proof.
  induction l as [|e' l IH]; cbn [insertByIndex]; [reflexivity|].
  destruct (_ <=? _)%N; [reflexivity|].
  rewrite IH. apply perm_swap.
Qed.

Lemma sortByIndex_perm (l : list (jsstring * V)) : Permutation (sortByIndex l) l.
Proof.
  unfold sortByIndex. induction l as [|e l IH]; cbn [fold_right]; [reflexivity|].
  rewrite insertByIndex_perm. now constructor.
Qed.

Lemma insertByIndex_sorted (e : jsstring * V) (l : list (jsstring * V)) :
  StronglySorted byIndex l -> StronglySorted byIndex (insertByIndex e l).
Proof.
  induction 1 as [|e' l Hs IH Hall]; cbn [insertByIndex].
  - repeat constructor.
  - destruct (N.leb_spec (digitsValue (fst e)) (digitsValue (fst e'))) as [Hle|Hgt].
    + constructor; [now constructor|]. constructor; [exact Hle|].
      eapply Forall_impl; [|exact Hall]. intros a Ha. unfold byIndex in *. lia.
    + constructor; [exact IH|].
      apply (Permutation_Forall (Permutation_sym (insertByIndex_perm e l))).
      constructor; [unfold byIndex; lia | exact Hall].
Qed.

Lemma sortByIndex_sorted (l : list (jsstring * V)) :
  StronglySorted byIndex (sortByIndex l).
Proof.
  unfold sortByIndex. induction l as [|e l IH]; cbn [fold_right];
    [constructor | now apply insertByIndex_sorted].
Qed.

Lemma filter_partition_perm (q : jsstring * V -> bool) (l : list (jsstring * V)) :
  Permutation (filter q l ++ filter (fun e => negb (q e)) l) l.
Proof.
  induction l as [|e l IH]; [reflexivity|]. cbn [filter].
  destruct (q e); cbn [negb app].
  - now constructor.
  - rewrite <- Permutation_middle. now constructor.
Qed.

End EntriesOrder.

(** X13: the subsections of a rendered report that is not passed and has no
    path naming an inherited property.  There is one subsection for each
    distinct file, with that file's violations in their original order.
    The files whose paths are array indices come first, by ascending
    number; the other files follow in the order of their first
    occurrences. *)
Theorem render_sections_order (report : ComplianceReport)
  (commitSha commitMessage author : jsstring)
  (Hp : passed report = false)
  (Hplain : plainPaths (violations report) = true) :
  exists indexed,
    formatComplianceReport report commitSha commitMessage author
    = Ok (preamble report commitSha commitMessage author
          ++ violationsHeading
          ++ List.concat
               (map section
                  (indexed
                   ++ filter (fun e => negb (isArrayIndex (fst e)))
                        (groupsInOrder (violations report))))
          ++ closing)
    /\ Permutation indexed
         (filter (fun e => isArrayIndex (fst e))
            (groupsInOrder (violations report)))
    /\ StronglySorted indexOrder indexed
    /\ Permutation
         (indexed
          ++ filter (fun e => negb (isArrayIndex (fst e)))
               (groupsInOrder (violations report)))
         (groupsInOrder (violations report)).
Proof.
  exists (sortByIndex
            (filter (fun e => isArrayIndex (fst e))
               (groupsInOrder (violations report)))).
  split; [now rewrite format_closed_form, Hp, Hplain|].
  split; [apply sortByIndex_perm|]. split; [apply sortByIndex_sorted|].
  rewrite sortByIndex_perm.
  apply (filter_partition_perm (fun e => isArrayIndex (fst e))).
Qed.

Lemma render_sections_order_witness :
  passed mixedReport = false
  /\ plainPaths (violations mixedReport) = true
  /\ exists indexed,
       formatComplianceReport mixedReport
         (lit "1234567890") (lit "message") (lit "author")
       = Ok (preamble mixedReport (lit "1234567890") (lit "message") (lit "author")
             ++ violationsHeading
             ++ List.concat
                  (map section
                     (indexed
                      ++ filter (fun e => negb (isArrayIndex (fst e)))
                           (groupsInOrder (violations mixedReport))))
             ++ closing)
       /\ Permutation indexed
            (filter (fun e => isArrayIndex (fst e))
               (groupsInOrder (violations mixedReport)))
       /\ StronglySorted indexOrder indexed
       /\ Permutation
            (indexed
             ++ filter (fun e => negb (isArrayIndex (fst e)))
                  (groupsInOrder (violations mixedReport)))
            (groupsInOrder (violations mixedReport)).
Proof.
  assert (Hp : passed mixedReport = false) by reflexivity.
  assert (Hplain : plainPaths (violations mixedReport) = true)
    by (vm_compute; reflexivity).
  split; [exact Hp|]. split; [exact Hplain|].
  exact (@render_sections_order mixedReport
           (lit "1234567890") (lit "message") (lit "author") Hp Hplain).
Defined.

Example sections_of_mixed_paths :
  map fst (entries (groupsInOrder (violations mixedReport)))
  = [lit "7"; lit "404"; lit "src/b.js"].
Proof. vm_compute. reflexivity. Qed.

(** X14: the issue is created in the repository of the push, under the
    owner's name when the payload has a non-empty one and under the owner's
    login otherwise. *)
Theorem issue_in_pushed_repository (octokit : Octokit) (payload : PushPayload)
  (request : IssueRequest)
  (H : snd (onPush octokit payload) = Created request) :
  issueRepo request = repositoryName payload
  /\ issueOwner request
     = match ownerName payload with
       | Some (ch :: name) => ch :: name
       | Some [] | None => ownerLogin payload
       end.
Proof.
  apply onPush_created in H. destruct H as [c [cs [doc [_ [_ ->]]]]].
  cbn [issueRepo issueOwner]. split; [reflexivity|].
  unfold repositoryOwner. destruct (ownerName payload) as [[|ch name]|];
    reflexivity.
Qed.

Lemma issue_in_pushed_repository_witness :
  snd (onPush sampleOctokit samplePush) = Created sampleRequest
  /\ issueRepo sampleRequest = repositoryName samplePush
  /\ issueOwner sampleRequest
     = match ownerName samplePush with
       | Some (ch :: name) => ch :: name
       | Some [] | None => ownerLogin samplePush
       end.
Proof.
  assert (H : snd (onPush sampleOctokit samplePush) = Created sampleRequest)
    by (vm_compute; reflexivity).
  split; [exact H|].
  exact (@issue_in_pushed_repository sampleOctokit samplePush sampleRequest H).
Defined.

(** ** Every violation under its file, once *)

Lemma entries_perm {V} (o : object V) : Permutation (entries o) o.
Proof.
  unfold entries. rewrite sortByIndex_perm.
  apply (filter_partition_perm (fun e => isArrayIndex (fst e))).
Qed.

Lemma flat_map_one_key (A : Type) (G : jsstring -> list A) (a : A)
  (k : jsstring) (ks : list jsstring) :
  NoDup ks -> In k ks ->
  Permutation
    (flat_map (fun f => (if JsString.eqb k f then [a] else []) ++ G f) ks)
    (a :: flat_map G ks).
Proof.
  induction 1 as [|f ks Hf Hnd IH]; intros Hin; [contradiction|].
  cbn [flat_map]. destruct (JsString.eqb k f) eqn:E.
  - apply eqb_eq in E. subst f. cbn [app]. constructor.
    apply Permutation_app_head.
    replace (flat_map (fun f => (if JsString.eqb k f then [a] else []) ++ G f) ks)
      with (flat_map G ks); [reflexivity|].
    rewrite !flat_map_concat_map. f_equal. apply map_ext_in. intros f Hin'.
    destruct (JsString.eqb k f) eqn:E'; [|reflexivity].
    apply eqb_eq in E'. now subst.
  - destruct Hin as [->|Hin]; [now rewrite eqb_refl in E|].
    cbn [app]. rewrite (IH Hin). symmetry. apply Permutation_middle.
Qed.

Lemma groups_cover (ks : list jsstring) (vs : list ComplianceViolation) :
  NoDup ks ->
  (forall v, In v vs -> In (file v) ks) ->
  Permutation (flat_map (fun f => violationsOf f vs) ks) vs.
Proof.
  intros Hnd. induction vs as [|v vs IH]; intros Hin.
  - clear. unfold violationsOf. cbn [filter].
    induction ks as [|k ks IHks]; [reflexivity | exact IHks].
  - replace (flat_map (fun f => violationsOf f (v :: vs)) ks)
      with (flat_map
              (fun f => (if JsString.eqb (file v) f then [v] else [])
                        ++ violationsOf f vs) ks).
    + rewrite flat_map_one_key;
        [|assumption | apply Hin; now left].
      constructor. apply IH. intros u Hu. apply Hin. now right.
    + apply flat_map_ext. intros f. unfold violationsOf. cbn [filter].
      now destruct (JsString.eqb (file v) f).
Qed.

Lemma groupsInOrder_cover (vs : list ComplianceViolation) :
  Permutation (flat_map snd (groupsInOrder vs)) vs.
Proof.
  unfold groupsInOrder. rewrite flat_map_concat_map, map_map. cbn [snd].
  rewrite <- flat_map_concat_map.
  apply groups_cover; [apply firstOccurrences_NoDup|].
  intros v Hv. apply firstOccurrences_In. now apply in_map.
Qed.

Lemma violationsOf_present (f : jsstring) (vs : list ComplianceViolation) :
  In f (map file vs) -> violationsOf f vs <> [].
Proof.
  intros H. apply in_map_iff in H. destruct H as [v [<- Hv]].
  assert (Hin : In v (violationsOf (file v) vs)).
  { apply filter_In. split; [assumption | apply eqb_refl]. }
  intros E. rewrite E in Hin. contradiction.
Qed.

(** X15: a rendered report that is not passed and has no path naming an
    inherited property lists every violation exactly once: no two
    subsections are headed by the same path, each subsection holds all the
    violations of its path, at least one, in their original order, and the
    violations of all subsections together are those of the report. *)
Theorem render_each_violation_once (report : ComplianceReport)
  (commitSha commitMessage author : jsstring)
  (Hp : passed report = false)
  (Hplain : plainPaths (violations report) = true) :
  exists sections,
    formatComplianceReport report commitSha commitMessage author
    = Ok (preamble report commitSha commitMessage author
          ++ violationsHeading
          ++ List.concat (map section sections)
          ++ closing)
    /\ NoDup (map fst sections)
    /\ (forall e, In e sections ->
          snd e = violationsOf (fst e) (violations report) /\ snd e <> [])
    /\ Permutation (flat_map snd sections) (violations report).
Proof.
  exists (entries (groupsInOrder (violations report))).
  pose proof (entries_perm (groupsInOrder (violations report))) as Hperm.
  split; [now rewrite format_closed_form, Hp, Hplain|]. split; [|split].
  - apply (Permutation_NoDup (Permutation_map fst (Permutation_sym Hperm))).
    unfold groupsInOrder. rewrite map_map. cbn [fst]. rewrite map_id.
    apply firstOccurrences_NoDup.
  - intros e He. apply (Permutation_in _ Hperm) in He.
    unfold groupsInOrder in He. apply in_map_iff in He.
    destruct He as [f [<- Hf]]. cbn [fst snd]. split; [reflexivity|].
    apply violationsOf_present. now apply firstOccurrences_In.
  - rewrite (Permutation_flat_map snd Hperm). apply groupsInOrder_cover.
Qed.

Lemma render_each_violation_once_witness :
  passed mixedReport = false
  /\ plainPaths (violations mixedReport) = true
  /\ exists sections,
       formatComplianceReport mixedReport
         (lit "1234567890") (lit "message") (lit "author")
       = Ok (preamble mixedReport (lit "1234567890") (lit "message") (lit "author")
             ++ violationsHeading
             ++ List.concat (map section sections)
             ++ closing)
       /\ NoDup (map fst sections)
       /\ (forall e, In e sections ->
             snd e = violationsOf (fst e) (violations mixedReport)
             /\ snd e <> [])
       /\ Permutation (flat_map snd sections) (violations mixedReport).
Proof.
  assert (Hp : passed mixedReport = false) by reflexivity.
  assert (Hplain : plainPaths (violations mixedReport) = true)
    by (vm_compute; reflexivity).
  split; [exact Hp|]. split; [exact Hplain|].
  exact (@render_each_violation_once mixedReport
           (lit "1234567890") (lit "message") (lit "author") Hp Hplain).
Defined.
